(** * Model Linker front end: missing-model display, resolution planning,
      download polling and byte formatting.

    The development embeds the [LinkerManagerDialog] class of the Model
    Linker extension (latest revision of [web/linker.js]).  Arrays are
    lists, JS numbers that hold integers are [Z], optional properties are
    [option], and the [activeDownloads] object is a finite map keyed by the
    download id. *)

From Stdlib Require Import ZArith String Ascii.
From stdpp Require Import base decidable option list sorting gmap strings pretty.

Local Open Scope Z_scope.

(** ** JavaScript array primitives *)

Module Js.

Section Sort.
Context {A : Type} (cmp : A → A → Z).

(** [Array.prototype.sort(cmp)].  ECMAScript requires the sort to be
    stable; for a comparator that is a consistent ordering the result is
    therefore determined, and it is the one stable insertion computes:
    an element is placed in front of the first element that must not
    precede it. *)
Fixpoint insert (x : A) (l : list A) : list A :=
  match l with
  | [] => [x]
  | y :: l' => if decide (cmp x y ≤ 0) then x :: y :: l' else y :: insert x l'
  end.

Definition sort (l : list A) : list A := foldr insert [] l.

(** [x] may stand in front of [y]. *)
Definition before (x y : A) : Prop := cmp x y ≤ 0.
End Sort.

(** [Array.prototype.find]. *)
Fixpoint find {A : Type} (p : A → bool) (l : list A) : option A :=
  match l with
  | [] => None
  | x :: l' => if p x then Some x else find p l'
  end.

(** [Array.prototype.some]. *)
Definition some {A : Type} (p : A → bool) (l : list A) : bool := existsb p l.

(** [Math.max(...l)] for a non-empty [l] (the callers guard the empty
    case with [length > 0]). *)
Definition max_of (x : Z) (l : list Z) : Z := foldr Z.max x l.

(** [a || b] on a possibly undefined value. *)
Definition or_else {A : Type} (a : option A) (b : A) : A := default b a.

End Js.

(** ** Data received from the analyze endpoint *)

(** A local model file ([match.model], [resolvedModel]). *)
Record Model := {
  path : string;
  relative_path : option string;
  model_filename : option string;
}.

(** One scored candidate of [missing.matches]. *)
Record Match := {
  confidence : Z;
  model : option Model;
  filename : option string;
}.

(** One graph reference, as found in [missing.all_node_refs]. *)
Record NodeRef := {
  node_id : Z;
  widget_index : Z;
  category : option string;
  subgraph_id : option string;
  is_top_level : option bool;
}.

(** [download_source.size] is either a number of bytes or a preformatted
    string. *)
Inductive SizeValue :=
| SizeNumber (bytes : Z)
| SizeText (text : string).

Record DownloadSource := {
  url : option string;
  ds_filename : option string;
  directory : option string;
  ds_size : option SizeValue;
}.

(** One entry of [missing_models].  The entry carries the fields of its
    first reference itself ([node_id], [widget_index], ...), which is what
    [all_node_refs || [missing]] falls back on. *)
Record MissingModel := {
  self_ref : NodeRef;
  original_path : option string;
  matches : option (list Match);
  all_node_refs : option (list NodeRef);
  download_source : option DownloadSource;
}.

Record AnalyzeData := {
  missing_models : option (list MissingModel);
  total_missing : option Z;
}.

#[global] Instance Model_eq_dec : EqDecision Model.
Proof. solve_decision. Defined.
#[global] Instance Match_eq_dec : EqDecision Match.
Proof. solve_decision. Defined.
#[global] Instance NodeRef_eq_dec : EqDecision NodeRef.
Proof. solve_decision. Defined.

(** ** Candidate selection shared by [renderMissingModel] and the listener
       loop of [displayMissingModels] *)

(** [missing.matches || []] *)
Definition allMatches (missing : MissingModel) : list Match :=
  Js.or_else (matches missing) [].

(** [allMatches.filter(m => m.confidence >= 70)] *)
Definition filteredMatches (missing : MissingModel) : list Match :=
  filter (λ m, 70 ≤ confidence m) (allMatches missing).

(** [filteredMatches.filter(m => m.confidence === 100)] *)
Definition perfectMatches (missing : MissingModel) : list Match :=
  filter (λ m, confidence m = 100) (filteredMatches missing).

(** [filteredMatches.filter(m => m.confidence < 100 && m.confidence >= 70)] *)
Definition otherMatches (missing : MissingModel) : list Match :=
  filter (λ m, confidence m < 100 ∧ 70 ≤ confidence m) (filteredMatches missing).

(** [(a, b) => b.confidence - a.confidence] *)
Definition byConfidenceDesc (a b : Match) : Z := confidence b - confidence a.

(** The comparator of [sortedMatches]: 100% first, then by confidence. *)
Definition perfectFirst (a b : Match) : Z :=
  if decide (confidence a = 100 ∧ confidence b ≠ 100) then -1
  else if decide (confidence a ≠ 100 ∧ confidence b = 100) then 1
  else confidence b - confidence a.

(** [perfectMatches.length > 0 ? perfectMatches
      : otherMatches.sort(byConfidenceDesc).slice(0, 5)] *)
Definition matchesToShow (missing : MissingModel) : list Match :=
  if decide (0 < length (perfectMatches missing))%nat
  then perfectMatches missing
  else take 5 (Js.sort byConfidenceDesc (otherMatches missing)).

Definition sortedMatches (missing : MissingModel) : list Match :=
  Js.sort perfectFirst (matchesToShow missing).

(** ** [formatBytes] *)

(** The unit table of [formatBytes]. *)
Definition sizes : list string := ["B"; "KB"; "MB"; "GB"]%string.

(** [sizes[i]] inside a string concatenation: a missing element is
    [undefined] and prints as such. *)
Definition unit_at (i : Z) : string :=
  if decide (0 ≤ i) then default "undefined"%string (sizes !! Z.to_nat i)
  else "undefined"%string.

(** [parseFloat(x.toFixed(1))] printed, for [x = num / den] with [den] a
    power of two: [toFixed] rounds the exact value to the nearest tenth,
    the larger one on a tie, and [parseFloat] drops a zero fraction. *)
Definition fixed1 (num den : Z) : string :=
  let tenths := (20 * num + den) / (2 * den) in
  if decide (tenths `mod` 10 = 0) then pretty (tenths / 10)
  else (pretty (tenths / 10) +:+ "." +:+ pretty (tenths `mod` 10))%string.

(** [Math.floor(Math.log(bytes) / Math.log(1024))] for a positive integer:
    the integer logarithm to base 1024.  (The quotient of the two rounded
    logarithms floors to this value for every integer below [1024^4] and
    at the powers of 1024 themselves; just below a power [1024^5] or
    higher the rounded quotient can reach the next integer, which is then
    also past the end of [sizes].) *)
Definition log1024 (bytes : Z) : Z := Z.log2 bytes / 10.

Definition formatBytes (bytes : Z) : string :=
  if decide (bytes = 0) then "0 B"%string
  else if decide (bytes < 0) then "NaN undefined"%string
  else
    let k := 1024 in
    let i := log1024 bytes in
    (fixed1 bytes (k ^ i) +:+ " " +:+ unit_at i)%string.

(** ** String helpers *)

(** Truthiness of a possibly undefined string: the empty string is falsy. *)
Definition truthy (s : option string) : option string :=
  match s with
  | Some EmptyString | None => None
  | Some s' => Some s'
  end.

(** [a || b] on strings. *)
Definition str_or (a b : option string) : option string :=
  match truthy a with
  | Some s => Some s
  | None => b
  end.

Fixpoint contains (sep : ascii) (s : string) : bool :=
  match s with
  | EmptyString => false
  | String c s' => Ascii.eqb c sep || contains sep s'
  end.

(** [s.split(sep).pop()]: what follows the last separator. *)
Fixpoint after_last (sep : ascii) (s : string) : string :=
  match s with
  | EmptyString => EmptyString
  | String c s' => if contains sep s then after_last sep s' else s
  end.

(** [path?.split('/').pop()?.split('\\').pop() || dflt] *)
Definition basename_or (dflt : string) (p : option string) : string :=
  default dflt (truthy (after_last "\" <$> (after_last "/" <$> p))).

(** [toLowerCase], on the ASCII letters. *)
Definition lower_ascii (c : ascii) : ascii :=
  let n := nat_of_ascii c in
  if decide (65 ≤ n ≤ 90)%nat then ascii_of_nat (n + 32) else c.

Fixpoint toLowerCase (s : string) : string :=
  match s with
  | EmptyString => EmptyString
  | String c s' => String (lower_ascii c) (toLowerCase s')
  end.

(** [a.toLowerCase() === b.toLowerCase()] *)
Definition same_name (a b : string) : bool :=
  bool_decide (toLowerCase a = toLowerCase b).

(** ** [renderMissingModel] *)

(** The id of a button, [<kind>-<node_id>-<widget_index>]. *)
Definition EntryKey : Type := Z * Z.

Definition entry_key (missing : MissingModel) : EntryKey :=
  (node_id (self_ref missing), widget_index (self_ref missing)).

(** One row of the "Local Matches" column, with its Link button
    [resolve-<node_id>-<widget_index>-<matchIndex>]. *)
Record MatchRow := {
  row_button : EntryKey * nat;
  row_match : Match;
  row_path : string;
  row_best : bool;
}.

Inductive LocalColumn :=
| LocalRows (rows : list MatchRow) (others_below_100 : option nat)
| NoMatchesAbove70
| NoLocalMatches.

Inductive DownloadColumn :=
| NotNeeded
| DownloadButton (button : EntryKey) (sizeDisplay : string) (downloadFilename : string)
| SearchOnline (button : EntryKey).

(** The card [renderMissingModel] produces for one entry. *)
Record Card := {
  card_missing : MissingModel;
  card_local : LocalColumn;
  card_download : DownloadColumn;
}.

Definition renderRow (missing : MissingModel) (matchIndex : nat) (m : Match) : MatchRow :=
  {| row_button := (entry_key missing, matchIndex);
     row_match := m;
     row_path :=
       default EmptyString
         (str_or (str_or (model m ≫= relative_path) (filename m)) (Some EmptyString));
     row_best := bool_decide (matchIndex = 0%nat ∧ 95 ≤ confidence m) |}.

Definition renderLocal (missing : MissingModel) : LocalColumn :=
  if decide (0 < length (filteredMatches missing))%nat then
    LocalRows
      (imap (renderRow missing) (sortedMatches missing))
      (if decide (0 < length (perfectMatches missing) ∧
                  0 < length (otherMatches missing))%nat
       then Some (length (otherMatches missing)) else None)
  else if decide (0 < length (allMatches missing) ∧
                  length (filteredMatches missing) = 0)%nat
  then NoMatchesAbove70
  else NoLocalMatches.

Definition sizeDisplay (ds : DownloadSource) : string :=
  match ds_size ds with
  | Some (SizeNumber n) => if decide (n = 0) then EmptyString else formatBytes n
  | Some (SizeText s) => s
  | None => EmptyString
  end.

Definition renderDownload (missing : MissingModel) : DownloadColumn :=
  if decide (0 < length (perfectMatches missing))%nat then NotNeeded
  else
    match download_source missing with
    | Some ds =>
        match truthy (url ds) with
        | Some _ =>
            DownloadButton (entry_key missing) (sizeDisplay ds)
              (default (basename_or EmptyString (original_path missing))
                 (truthy (ds_filename ds)))
        | None => SearchOnline (entry_key missing)
        end
    | None => SearchOnline (entry_key missing)
    end.

Definition renderMissingModel (missing : MissingModel) : Card :=
  {| card_missing := missing;
     card_local := renderLocal missing;
     card_download := renderDownload missing |}.

(** ** [displayMissingModels] *)

(** [filtered.some(m => m.confidence === 100)] of the sort comparator. *)
Definition has100 (missing : MissingModel) : bool :=
  Js.some (λ m, bool_decide (confidence m = 100)) (filteredMatches missing).

(** [filtered.length > 0 ? Math.max(...filtered.map(m => m.confidence)) : 0] *)
Definition bestConf (missing : MissingModel) : Z :=
  match confidence <$> filteredMatches missing with
  | [] => 0
  | c :: cs => Js.max_of c cs
  end.

(** The comparator handed to [missingModels.sort]. *)
Definition compareMissing (a b : MissingModel) : Z :=
  if has100 a && negb (has100 b) then -1
  else if negb (has100 a) && has100 b then 1
  else bestConf b - bestConf a.

Definition sortedMissingModels (missingModels : list MissingModel) : list MissingModel :=
  Js.sort compareMissing missingModels.

(** A Link button of the page, by its place among the Link buttons in
    document order (card by card, row by row). *)
Definition Element : Type := nat.

(** A click listener on a Link button: the click calls
    [resolveModel(missing, match.model)]. *)
Record ResolveListener := {
  on_element : Element;
  on_missing : MissingModel;
  on_model : option Model;
}.

(** The listener loop recomputes the candidate list of the entry and
    attaches to every button [querySelector] finds. *)
Definition listenerMatches (missing : MissingModel) : list Match :=
  let filtered := filter (λ m, 70 ≤ confidence m) (allMatches missing) in
  let perfect := filter (λ m, confidence m = 100) filtered in
  let other := filter (λ m, confidence m < 100 ∧ 70 ≤ confidence m) filtered in
  let toShow :=
    if decide (0 < length perfect)%nat then perfect
    else take 5 (Js.sort byConfidenceDesc other) in
  Js.sort perfectFirst toShow.

(** The rows of a card. *)
Definition card_rows (c : Card) : list MatchRow :=
  match card_local c with
  | LocalRows rows _ => rows
  | NoMatchesAbove70 | NoLocalMatches => []
  end.

(** The ids of the Link buttons of the page, in document order. *)
Definition rendered_buttons (cards : list Card) : list (EntryKey * nat) :=
  cards ≫= λ c, row_button <$> card_rows c.

(** [container.querySelector('#' + buttonId)]: the first element in
    document order that has the id. *)
Definition querySelector (cards : list Card) (buttonId : EntryKey * nat)
  : option Element :=
  fst <$> list_find (λ b, b = buttonId) (rendered_buttons cards).

Definition attachListeners (cards : list Card) (missing : MissingModel)
  : list ResolveListener :=
  omap id
    (imap (λ matchIndex m,
             (λ resolveButton,
                {| on_element := resolveButton;
                   on_missing := missing;
                   on_model := model m |})
               <$> querySelector cards (entry_key missing, matchIndex))
       (listenerMatches missing)).

(** What [displayMissingModels] leaves in the content element. *)
Inductive Content :=
| Analyzing
| NoWorkflowLoaded
| LoadError (message : string)
| AllAvailable
| DownloadsInProgress (activeCount : nat)
| MissingList (totalMissing : Z) (activeCount : nat)
    (cards : list Card) (listeners : list ResolveListener).

Record Display := {
  autoResolveButtonShown : bool;
  downloadAllButtonShown : bool;
  shown : Content;
}.

Definition displayMissingModels (activeCount : nat) (data : AnalyzeData) : Display :=
  let missingModels := Js.or_else (missing_models data) [] in
  let totalMissing := Js.or_else (total_missing data) 0 in
  let hasAny100Match :=
    Js.some (λ m, Js.some (λ x, bool_decide (confidence x = 100)) (allMatches m))
      missingModels in
  {| autoResolveButtonShown := hasAny100Match;
     downloadAllButtonShown := bool_decide (0 < totalMissing);
     shown :=
       if decide (totalMissing = 0 ∧ activeCount = 0%nat) then AllAvailable
       else if decide (totalMissing = 0 ∧ (0 < activeCount)%nat)
       then DownloadsInProgress activeCount
       else
         let sorted := sortedMissingModels missingModels in
         let cards := renderMissingModel <$> sorted in
         MissingList totalMissing activeCount cards
           (sorted ≫= attachListeners cards) |}.

(** ** Observations on a rendered card *)

(** The candidates a card offers with a Link button, top to bottom. *)
Definition offered (c : Card) : list Match :=
  match card_local c with
  | LocalRows rows _ => row_match <$> rows
  | NoMatchesAbove70 | NoLocalMatches => []
  end.

(** The number the card reports in its "n other matches below 100%" note. *)
Definition reported_others (c : Card) : option nat :=
  match card_local c with
  | LocalRows _ note => note
  | NoMatchesAbove70 | NoLocalMatches => None
  end.

(** The card says that the entry has no usable local match. *)
Definition marked_no_local_match (c : Card) : Prop :=
  card_local c = NoMatchesAbove70 ∨ card_local c = NoLocalMatches.

(** The entry has a perfect candidate among those at or above 70. *)
Definition has_perfect (missing : MissingModel) : Prop :=
  ∃ m, m ∈ allMatches missing ∧ 70 ≤ confidence m ∧ confidence m = 100.

(** [c] is the best confidence among the candidates at or above 70, or 0
    when there is none. *)
Definition best_confidence (missing : MissingModel) (c : Z) : Prop :=
  (c = 0 ∧ ∀ m, m ∈ allMatches missing → confidence m < 70) ∨
  ((∃ m, m ∈ allMatches missing ∧ 70 ≤ confidence m ∧ confidence m = c) ∧
   ∀ m, m ∈ allMatches missing → 70 ≤ confidence m → confidence m ≤ c).

(** The entries behind the cards on display, top to bottom. *)
Definition displayed (d : Display) : list MissingModel :=
  match shown d with
  | MissingList _ _ cards _ => card_missing <$> cards
  | _ => []
  end.

(** A decimal numeral with at most one digit after the point, between 1
    and 1024, printed the way JavaScript prints it. *)
Definition numeral (s : string) : Prop :=
  ∃ whole frac : Z,
    1 ≤ whole ≤ 1024 ∧ 0 ≤ frac ≤ 9 ∧
    s = if decide (frac = 0) then pretty whole
        else (pretty whole +:+ "." +:+ pretty frac)%string.

(** ** The dialog and the server it talks to *)

(** One entry of the [resolutions] array posted to [/model_linker/resolve]. *)
Record Resolution := {
  r_node_id : Z;
  r_widget_index : Z;
  resolved_path : string;
  r_category : option string;
  resolved_model : Model;
  r_subgraph_id : option string;
  r_is_top_level : option bool;
}.

(** The object literal that [resolveModel] and [autoResolveAfterDownload]
    build for one reference. *)
Definition resolution_of (resolvedModel : Model) (ref : NodeRef) : Resolution :=
  {| r_node_id := node_id ref;
     r_widget_index := widget_index ref;
     resolved_path := path resolvedModel;
     r_category := category ref;
     resolved_model := resolvedModel;
     r_subgraph_id := subgraph_id ref;
     r_is_top_level := is_top_level ref |}.

(** [missing.all_node_refs || [missing]] *)
Definition nodeRefs (missing : MissingModel) : list NodeRef :=
  Js.or_else (all_node_refs missing) [self_ref missing].

(** The outcome of [await api.fetchApi(...)] followed by the [response.ok]
    test and [response.json()]. *)
Inductive Response (A : Type) :=
| Rejected (message : string)
| Status (code : Z)
| Json (body : A).
Arguments Rejected {A} message.
Arguments Status {A} code.
Arguments Json {A} body.

(** The body of [/model_linker/progress/<id>]. *)
Record Progress := {
  status : string;
  progress_filename : string;
  progress_error : option string;
}.

(** The body of [/model_linker/download]. *)
Record DownloadStarted := {
  started : bool;
  download_id : string;
  start_error : option string;
}.

Inductive NotificationType := success | error | info.

Record Notification := {
  message : string;
  type : NotificationType;
}.

(** What the dialog keeps per tracked download.  (The handles of the
    progress element and of the button are display only and left out.) *)
Record DownloadInfo := {
  info_missing : MissingModel;
}.

(** A call the dialog has handed to [setTimeout]. *)
Inductive Task :=
| PollDownloadProgress (downloadId : string)
| AutoResolveAfterDownload (missing : MissingModel) (downloadedFilename : string).

Record Timer := {
  task : Task;
  delay : Z;
}.

(** [error.message] for a failed request, with the text thrown on a bad
    status. *)
Definition failure_message {A} (prefix : string) (r : Response A) : string :=
  match r with
  | Rejected msg => msg
  | Status code => (prefix +:+ pretty code)%string
  | Json _ => EmptyString
  end.

Section Dialog.
Context {Workflow : Type}.

(** The body of [/model_linker/resolve]. *)
Inductive ResolveData :=
| ResolveSuccess (workflow : Workflow)
| ResolveFailure (error : option string).

(** Requests in the order they were sent. *)
Inductive Request :=
| PostAnalyze (workflow : Workflow)
| PostResolve (workflow : Workflow) (resolutions : list Resolution)
| PostDownload (url filename category : string)
| GetProgress (downloadId : string).

(** The server, as far as one call of a dialog method sees it. *)
Record Api := {
  analyze : Workflow → Response AnalyzeData;
  resolve : Workflow → list Resolution → Response ResolveData;
  download : string → string → string → Response DownloadStarted;
  progress : string → Response Progress;
}.

(** The state the methods of [LinkerManagerDialog] read and write:
    [app.graph] (absent when ComfyUI has no graph), the tracking table,
    the content element, and logs of what was shown, sent and scheduled. *)
Record Dialog := {
  graph : option Workflow;
  activeDownloads : gmap string DownloadInfo;
  display : Display;
  notifications : list Notification;
  requests : list Request;
  timers : list Timer;
}.

Definition set_graph (w : Workflow) (d : Dialog) : Dialog :=
  {| graph := Some w; activeDownloads := activeDownloads d; display := display d;
     notifications := notifications d; requests := requests d; timers := timers d |}.

Definition set_activeDownloads (t : gmap string DownloadInfo) (d : Dialog) : Dialog :=
  {| graph := graph d; activeDownloads := t; display := display d;
     notifications := notifications d; requests := requests d; timers := timers d |}.

Definition set_display (v : Display) (d : Dialog) : Dialog :=
  {| graph := graph d; activeDownloads := activeDownloads d; display := v;
     notifications := notifications d; requests := requests d; timers := timers d |}.

Definition set_content (c : Content) (d : Dialog) : Dialog :=
  set_display
    {| autoResolveButtonShown := autoResolveButtonShown (display d);
       downloadAllButtonShown := downloadAllButtonShown (display d);
       shown := c |} d.

Definition showNotification (msg : string) (t : NotificationType) (d : Dialog) : Dialog :=
  {| graph := graph d; activeDownloads := activeDownloads d; display := display d;
     notifications := notifications d ++ [{| message := msg; type := t |}];
     requests := requests d; timers := timers d |}.

Definition fetchApi (r : Request) (d : Dialog) : Dialog :=
  {| graph := graph d; activeDownloads := activeDownloads d; display := display d;
     notifications := notifications d; requests := requests d ++ [r];
     timers := timers d |}.

Definition setTimeout (t : Task) (ms : Z) (d : Dialog) : Dialog :=
  {| graph := graph d; activeDownloads := activeDownloads d; display := display d;
     notifications := notifications d; requests := requests d;
     timers := timers d ++ [{| task := t; delay := ms |}] |}.

(** [getCurrentWorkflow]: the serialized graph, or [null]. *)
Definition getCurrentWorkflow (d : Dialog) : option Workflow := graph d.

(** [updateWorkflowInComfyUI]: [app.graph.configure(workflow)], and
    nothing at all when there is no graph. *)
Definition updateWorkflowInComfyUI (w : Workflow) (d : Dialog) : Dialog :=
  match graph d with
  | Some _ => set_graph w d
  | None => d
  end.

(** [loadWorkflowData(workflow = null)] *)
Definition loadWorkflowData (api : Api) (workflow : option Workflow) (d : Dialog) : Dialog :=
  let d := set_content Analyzing d in
  let workflow :=
    match workflow with Some w => Some w | None => getCurrentWorkflow d end in
  match workflow with
  | None => set_content NoWorkflowLoaded d
  | Some w =>
      let d := fetchApi (PostAnalyze w) d in
      match analyze api w with
      | Json data =>
          set_display (displayMissingModels (size (activeDownloads d)) data) d
      | r => set_content (LoadError (failure_message "API error: " r)) d
      end
  end.

(** [resolveModel(missing, resolvedModel)] *)
Definition resolveModel (api : Api) (missing : MissingModel)
    (resolvedModel : option Model) (d : Dialog) : Dialog :=
  match resolvedModel with
  | None => showNotification "No resolved model selected" error d
  | Some resolvedModel =>
      match getCurrentWorkflow d with
      | None => showNotification "No workflow loaded" error d
      | Some workflow =>
          let resolutions := resolution_of resolvedModel <$> nodeRefs missing in
          let d := fetchApi (PostResolve workflow resolutions) d in
          match resolve api workflow resolutions with
          | Json (ResolveSuccess w) =>
              let d := updateWorkflowInComfyUI w d in
              let modelName :=
                default "model"%string
                  (str_or (relative_path resolvedModel) (model_filename resolvedModel)) in
              let count := length resolutions in
              let refText :=
                if decide (1 < count)%nat
                then (" (" +:+ pretty count +:+ " references)")%string
                else EmptyString in
              let d :=
                showNotification
                  ("✓ Model linked successfully: " +:+ modelName +:+ refText)%string
                  success d in
              loadWorkflowData api (Some w) d
          | Json (ResolveFailure e) =>
              showNotification
                ("Failed to resolve model: " +:+
                 default "Unknown error"%string (truthy e))%string error d
          | r =>
              showNotification
                ("Error resolving model: " +:+ failure_message "API error: " r)%string
                error d
          end
      end
  end.

(** The loop of [autoResolve100Percent] that collects the resolutions. *)
Definition collect100Percent (missingModels : list MissingModel) : list Resolution :=
  missingModels ≫= λ missing,
    match Js.find (λ m, bool_decide (confidence m = 100)) (allMatches missing) with
    | Some perfectMatch =>
        match model perfectMatch with
        | Some mdl => [resolution_of mdl (self_ref missing)]
        | None => []
        end
    | None => []
    end.

(** [autoResolve100Percent()], with the workflow it returns. *)
Definition autoResolve100Percent (api : Api) (d : Dialog) : option Workflow * Dialog :=
  match getCurrentWorkflow d with
  | None => (None, showNotification "No workflow loaded" error d)
  | Some workflow =>
      let d := fetchApi (PostAnalyze workflow) d in
      match analyze api workflow with
      | Json analyzeData =>
          let missingModels := Js.or_else (missing_models analyzeData) [] in
          let resolutions := collect100Percent missingModels in
          if decide (length resolutions = 0%nat) then
            (None,
             showNotification "No 100% confidence matches found to auto-resolve."
               error d)
          else
            let d := fetchApi (PostResolve workflow resolutions) d in
            match resolve api workflow resolutions with
            | Json (ResolveSuccess w) =>
                let d := updateWorkflowInComfyUI w d in
                let d :=
                  showNotification
                    ("✓ Successfully linked " +:+ pretty (length resolutions) +:+
                     " model" +:+
                     (if decide (1 < length resolutions)%nat then "s" else EmptyString) +:+
                     "!")%string success d in
                (Some w, loadWorkflowData api (Some w) d)
            | Json (ResolveFailure e) =>
                (None,
                 showNotification
                   ("Failed to resolve models: " +:+
                    default "Unknown error"%string (truthy e))%string error d)
            | r =>
                (None,
                 showNotification
                   ("Error auto-resolving: " +:+ failure_message "API error: " r)%string
                   error d)
            end
      | r =>
          (None,
           showNotification
             ("Error auto-resolving: " +:+ failure_message "API error: " r)%string
             error d)
      end
  end.

(** ** Downloads *)

Definition set_timers (ts : list Timer) (d : Dialog) : Dialog :=
  {| graph := graph d; activeDownloads := activeDownloads d; display := display d;
     notifications := notifications d; requests := requests d; timers := ts |}.

(** [m => m.original_path?.split('/').pop()?.split('\\').pop() || ''],
    compared with the downloaded file name without regard to case. *)
Definition named_like (downloadedFilename : string) (m : MissingModel) : bool :=
  same_name (basename_or EmptyString (original_path m)) downloadedFilename.

(** The candidate test of [autoResolveAfterDownload]: confidence 100, or
    the file name of the download. *)
Definition matches_download (downloadedFilename : string) (m : Match) : bool :=
  let matchFilename :=
    default EmptyString (str_or (filename m) (model m ≫= model_filename)) in
  bool_decide (confidence m = 100) || same_name matchFilename downloadedFilename.

(** [autoResolveAfterDownload(missing, downloadedFilename)] *)
Definition autoResolveAfterDownload (api : Api) (missing : MissingModel)
    (downloadedFilename : string) (d : Dialog) : Dialog :=
  match getCurrentWorkflow d with
  | None => loadWorkflowData api None d
  | Some workflow =>
      let d := fetchApi (PostAnalyze workflow) d in
      match analyze api workflow with
      | Json analyzeData =>
          let missingModels := Js.or_else (missing_models analyzeData) [] in
          match Js.find (named_like downloadedFilename) missingModels with
          | None => loadWorkflowData api None d
          | Some targetMissing =>
              match Js.find (matches_download downloadedFilename)
                      (allMatches targetMissing) with
              | Some {| model := Some mdl |} =>
                  let resolutions := resolution_of mdl <$> nodeRefs targetMissing in
                  let d := fetchApi (PostResolve workflow resolutions) d in
                  match resolve api workflow resolutions with
                  | Json (ResolveSuccess w) =>
                      let d := updateWorkflowInComfyUI w d in
                      let count := length resolutions in
                      let d :=
                        showNotification
                          ("✓ Auto-resolved: " +:+ downloadedFilename +:+ " (" +:+
                           pretty count +:+ " reference" +:+
                           (if decide (1 < count)%nat then "s" else EmptyString) +:+ ")")%string
                          success d in
                      loadWorkflowData api (Some w) d
                  | _ => loadWorkflowData api None d
                  end
              | _ => loadWorkflowData api None d
              end
          end
      | _ => loadWorkflowData api None d
      end
  end.

(** [pollDownloadProgress(downloadId)] *)
Definition pollDownloadProgress (api : Api) (downloadId : string) (d : Dialog) : Dialog :=
  match activeDownloads d !! downloadId with
  | None => d
  | Some info_ =>
      let d := fetchApi (GetProgress downloadId) d in
      match progress api downloadId with
      | Json p =>
          if decide (status p = "downloading" ∨ status p = "starting")%string then
            setTimeout (PollDownloadProgress downloadId) 1000 d
          else if decide (status p = "completed"%string) then
            let d := set_activeDownloads (delete downloadId (activeDownloads d)) d in
            let d :=
              showNotification ("Downloaded: " +:+ progress_filename p)%string success d in
            setTimeout
              (AutoResolveAfterDownload (info_missing info_) (progress_filename p)) 500 d
          else if decide (status p = "error"%string) then
            set_activeDownloads (delete downloadId (activeDownloads d)) d
          else if decide (status p = "cancelled"%string) then
            let d := set_activeDownloads (delete downloadId (activeDownloads d)) d in
            showNotification "Download cancelled" info d
          else
            setTimeout (PollDownloadProgress downloadId) 500 d
      | _ => set_activeDownloads (delete downloadId (activeDownloads d)) d
      end
  end.

(** [downloadModel(missing)] *)
Definition downloadModel (api : Api) (missing : MissingModel) (d : Dialog) : Dialog :=
  match download_source missing with
  | None => showNotification "No download URL available" error d
  | Some source =>
      match truthy (url source) with
      | None => showNotification "No download URL available" error d
      | Some url_ =>
          let originalFilename :=
            basename_or "model.safetensors" (original_path missing) in
          let filename_ := default originalFilename (truthy (ds_filename source)) in
          let category_ :=
            default "checkpoints"%string
              (str_or (directory source) (category (self_ref missing))) in
          let d := fetchApi (PostDownload url_ filename_ category_) d in
          match download api url_ filename_ category_ with
          | Json data =>
              if started data then
                let d :=
                  set_activeDownloads
                    (<[download_id data := {| info_missing := missing |}]>
                       (activeDownloads d)) d in
                pollDownloadProgress api (download_id data) d
              else
                showNotification
                  ("Download failed: " +:+
                   default "Download failed"%string (truthy (start_error data)))%string
                  error d
          | r =>
              showNotification
                ("Download failed: " +:+ failure_message "Download failed: " r)%string
                error d
          end
      end
  end.

(** Running a scheduled call when its timer fires. *)
Definition runTask (api : Api) (t : Task) (d : Dialog) : Dialog :=
  match t with
  | PollDownloadProgress downloadId => pollDownloadProgress api downloadId d
  | AutoResolveAfterDownload missing downloadedFilename =>
      autoResolveAfterDownload api missing downloadedFilename d
  end.
End Dialog.
Arguments ResolveData : clear implicits.
Arguments Request : clear implicits.
Arguments Api : clear implicits.
Arguments Dialog : clear implicits.

(** ** The Graph Patcher *)


Module GraphPatcher.

(** Lists of records that are found by a key (nodes by id, subgraph
    definitions by id). *)
Section Keyed.
Context {K A : Type} `{EqDecision K} (key : A → K).

Fixpoint lookup_key (k : K) (l : list A) : option A :=
  match l with
  | [] => None
  | x :: l' => if decide (key x = k) then Some x else lookup_key k l'
  end.

(** Replace the record with key [k] by [f] of it; fails when there is
    no such record or [f] fails on it. *)
Fixpoint update_key (k : K) (f : A → option A) (l : list A) : option (list A) :=
  match l with
  | [] => None
  | x :: l' =>
      if decide (key x = k) then (λ y, y :: l') <$> f x
      else (λ r, x :: r) <$> update_key k f l'
  end.
End Keyed.

(** Modelled from the spec: a node with its id and parameter list. *)
Record Node := {
  id : Z;
  widgets_values : list string;
}.

(** Modelled from the spec: a subgraph definition, shared by all its
    instances. *)
Record Subgraph := {
  definition_id : string;
  definition_nodes : list Node;
}.

(** Modelled from the spec: the workflow graph the Graph Patcher works on
    (the server side of [/model_linker/resolve] is not among the front-end
    sources).  A graph has top-level nodes and subgraph definitions; a
    node holds its parameter list, in which a model path sits at a widget
    index. *)
Record Graph := {
  nodes : list Node;
  subgraphs : list Subgraph;
}.

(** Modelled from the spec: a patch [(nodeId, widgetIndex, subgraphId,
    newPath)]. *)
Record Patch := {
  nodeId : Z;
  widgetIndex : Z;
  subgraphId : option string;
  newPath : string;
}.

(** The place in a graph a patch writes to. *)
Definition Slot : Type := option string * Z * Z.

Definition slot (p : Patch) : Slot := (subgraphId p, nodeId p, widgetIndex p).

Definition read_node (i : Z) (n : Node) : option string :=
  if decide (0 ≤ i) then widgets_values n !! Z.to_nat i else None.

Definition write_node (i : Z) (v : string) (n : Node) : option Node :=
  if decide (0 ≤ i < Z.of_nat (length (widgets_values n))) then
    Some {| id := id n; widgets_values := <[Z.to_nat i := v]> (widgets_values n) |}
  else None.

(** The path stored at a slot, if the slot exists. *)
Definition read (g : Graph) (s : Slot) : option string :=
  let '(sg, n, i) := s in
  match sg with
  | None => lookup_key id n (nodes g) ≫= read_node i
  | Some sgid =>
      lookup_key definition_id sgid (subgraphs g) ≫= λ def,
      lookup_key id n (definition_nodes def) ≫= read_node i
  end.

Definition write_nodes (p : Patch) (ns : list Node) : option (list Node) :=
  update_key id (nodeId p) (write_node (widgetIndex p) (newPath p)) ns.

Definition write_definition (p : Patch) (def : Subgraph) : option Subgraph :=
  (λ ns, {| definition_id := definition_id def; definition_nodes := ns |})
    <$> write_nodes p (definition_nodes def).

(** Modelled from the spec: one patch on a graph; it fails when the
    node, widget or subgraph it refers to does not exist. *)
Definition patch (g : Graph) (p : Patch) : option Graph :=
  match subgraphId p with
  | None =>
      (λ ns, {| nodes := ns; subgraphs := subgraphs g |})
        <$> write_nodes p (nodes g)
  | Some sgid =>
      (λ sgs, {| nodes := nodes g; subgraphs := sgs |})
        <$> update_key definition_id sgid (write_definition p) (subgraphs g)
  end.

(** Modelled from the spec: [apply(graph, patches)].  The patches are
    applied in order to a copy; the first patch that refers to something
    that does not exist rejects the whole batch and is the error, and the
    caller keeps the graph it passed in. *)
Fixpoint apply (g : Graph) (patches : list Patch) : Graph + Patch :=
  match patches with
  | [] => inl g
  | p :: rest =>
      match patch g p with
      | Some g' => apply g' rest
      | None => inr p
      end
  end.

Definition patch_of (r : Resolution) : Patch :=
  {| nodeId := r_node_id r;
     widgetIndex := r_widget_index r;
     subgraphId := r_subgraph_id r;
     newPath := resolved_path r |}.

(** Modelled from the spec: the error of a refused batch is a text that
    identifies the offending reference.  The text gives the node, the
    widget and, for a node of a subgraph, the subgraph; its wording is
    not in the spec. *)
Definition describe (p : Patch) : string :=
  ("Reference not found: node " +:+ pretty (nodeId p) +:+
   ", widget " +:+ pretty (widgetIndex p) +:+
   match subgraphId p with
   | Some sgid => ", subgraph " +:+ sgid
   | None => EmptyString
   end)%string.

(** Modelled from the spec: the resolve operation,
    [resolve(workflowGraph, resolutions) → { success, workflow?, error? }]. *)
Definition resolve_endpoint (g : Graph) (resolutions : list Resolution)
  : Response (ResolveData Graph) :=
  match apply g (patch_of <$> resolutions) with
  | inl g' => Json (ResolveSuccess g')
  | inr p => Json (ResolveFailure (Some (describe p)))
  end.



End GraphPatcher.

(** ** Observations on what the dialog sent *)

(** The resolve batches among the requests, in order, each with the
    workflow it was sent with. *)
Definition resolve_batches {Workflow} (rs : list (Request Workflow))
  : list (Workflow * list Resolution) :=
  omap (λ r, match r with PostResolve w batch => Some (w, batch) | _ => None end) rs.

(** The workflows that were sent for analysis, in order. *)
Definition analyzed {Workflow} (rs : list (Request Workflow)) : list Workflow :=
  omap (λ r, match r with PostAnalyze w => Some w | _ => None end) rs.

(** A resolution is the patch of a reference with the chosen file. *)
Definition carries (resolvedModel : Model) (r : Resolution) (ref : NodeRef) : Prop :=
  r_node_id r = node_id ref ∧
  r_widget_index r = widget_index ref ∧
  r_subgraph_id r = subgraph_id ref ∧
  r_is_top_level r = is_top_level ref ∧
  resolved_path r = path resolvedModel.

(** The statuses after which the server reports nothing further. *)
Definition terminal (s : string) : Prop :=
  s = "completed"%string ∨ s = "error"%string ∨ s = "cancelled"%string.

(** A poll is scheduled for the job. *)
Definition poll_scheduled (downloadId : string) (ts : list Timer) : Prop :=
  ∃ t, t ∈ ts ∧ task t = PollDownloadProgress downloadId.

(** ** Sample data *)

Module Sample.

Definition file : Model :=
  {| path := "/models/checkpoints/subdir/model_v1.safetensors";
     relative_path := Some "subdir/model_v1.safetensors"%string;
     model_filename := Some "model_v1.safetensors"%string |}.

Definition candidate (c : Z) : Match :=
  {| confidence := c; model := Some file;
     filename := Some "model_v1.safetensors"%string |}.

Definition top_ref (n : Z) : NodeRef :=
  {| node_id := n; widget_index := 0; category := Some "checkpoints"%string;
     subgraph_id := None; is_top_level := Some true |}.

Definition inner_ref (n : Z) : NodeRef :=
  {| node_id := n; widget_index := 0; category := Some "checkpoints"%string;
     subgraph_id := Some "sg-1"%string; is_top_level := Some false |}.

(** An entry referenced by two top-level nodes and one node of a
    subgraph definition. *)
Definition entry (original : string) (ms : list Match) : MissingModel :=
  {| self_ref := top_ref 4;
     original_path := Some original;
     matches := Some ms;
     all_node_refs := Some [top_ref 4; top_ref 9; inner_ref 2];
     download_source := None |}.

Definition perfect_entry : MissingModel :=
  entry "checkpoints/model_v1.safetensors" [candidate 85; candidate 100; candidate 72].

Definition fuzzy_entry : MissingModel :=
  entry "checkpoints/model_v1.safetensors"
    [candidate 71; candidate 90; candidate 40; candidate 75; candidate 99;
     candidate 80; candidate 70; candidate 88].

(** A graph in which the three references of [entry] exist. *)
Definition workflow : GraphPatcher.Graph :=
  {| GraphPatcher.nodes :=
       [ {| GraphPatcher.id := 4;
            GraphPatcher.widgets_values := ["checkpoints/model_v1.safetensors"%string] |};
         {| GraphPatcher.id := 9;
            GraphPatcher.widgets_values := ["checkpoints/model_v1.safetensors"%string] |} ];
     GraphPatcher.subgraphs :=
       [ {| GraphPatcher.definition_id := "sg-1";
            GraphPatcher.definition_nodes :=
              [ {| GraphPatcher.id := 2;
                   GraphPatcher.widgets_values :=
                     ["checkpoints/model_v1.safetensors"%string] |} ] |} ] |}.

(** An entry whose only candidates are below the floor. *)
Definition weak_entry : MissingModel :=
  {| self_ref := top_ref 11;
     original_path := Some "loras/style.safetensors"%string;
     matches := Some [candidate 55; candidate 69];
     all_node_refs := Some [top_ref 11];
     download_source := None |}.

Definition analysis : AnalyzeData :=
  {| missing_models := Some [weak_entry; fuzzy_entry; perfect_entry];
     total_missing := Some 3 |}.

(** The same graph after node 9 was deleted. *)
Definition stale_workflow : GraphPatcher.Graph :=
  {| GraphPatcher.nodes :=
       [ {| GraphPatcher.id := 4;
            GraphPatcher.widgets_values := ["checkpoints/model_v1.safetensors"%string] |} ];
     GraphPatcher.subgraphs := GraphPatcher.subgraphs workflow |}.

Definition quiet : Display :=
  {| autoResolveButtonShown := false; downloadAllButtonShown := false;
     shown := Analyzing |}.

(** A server whose resolve operation is the Graph Patcher and whose
    analysis reports [found]. *)
Definition server (found : list MissingModel) (poll : Response Progress)
  : Api GraphPatcher.Graph :=
  {| analyze := λ _,
       Json {| missing_models := Some found;
               total_missing := Some (Z.of_nat (length found)) |};
     resolve := GraphPatcher.resolve_endpoint;
     download := λ _ _ _,
       Json {| started := true; download_id := "job-1"; start_error := None |};
     progress := λ _, poll |}.

(** A dialog over a graph, tracking the download [job-1] for [missing]. *)
Definition dialog_over (g : GraphPatcher.Graph) (missing : MissingModel)
  : Dialog GraphPatcher.Graph :=
  {| graph := Some g;
     activeDownloads := {[ "job-1"%string := {| info_missing := missing |} ]};
     display := quiet;
     notifications := [];
     requests := [];
     timers := [] |}.

Definition dialog (missing : MissingModel) : Dialog GraphPatcher.Graph :=
  dialog_over workflow missing.



Definition completed : Progress :=
  {| status := "completed"; progress_filename := "model_v1.safetensors";
     progress_error := None |}.

End Sample.

(** ** Badges and display names *)

(** [getConfidenceBadge(confidence)]: the class and the text of the badge
    element. *)
Record Badge := {
  badge_class : string;
  badge_text : string;
}.

Definition getConfidenceBadge (confidence : Z) : Badge :=
  {| badge_class :=
       if decide (95 ≤ confidence) then "ml-badge-high"%string
       else if decide (70 ≤ confidence) then "ml-badge-medium"%string
       else "ml-badge-low"%string;
     badge_text := (pretty confidence +:+ "%")%string |}.

(** The badge [renderMissingModel] puts in a row. *)
Definition row_badge (r : MatchRow) : Badge :=
  getConfidenceBadge (confidence (row_match r)).

Fixpoint str_take (n : nat) (s : string) : string :=
  match n, s with
  | S n', String c s' => String c (str_take n' s')
  | _, _ => EmptyString
  end.

Fixpoint str_drop (n : nat) (s : string) : string :=
  match n, s with
  | S n', String _ s' => str_drop n' s'
  | _, _ => s
  end.

(** [s.slice(start, end)], negative positions counting from the end. *)
Definition slice (s : string) (start : Z) (end_ : option Z) : string :=
  let len := Z.of_nat (String.length s) in
  let position i := if decide (i < 0) then Z.max (len + i) 0 else Z.min i len in
  let from := position start in
  let to := match end_ with Some e => position e | None => len end in
  str_take (Z.to_nat (to - from)) (str_drop (Z.to_nat from) s).

(** [s.lastIndexOf(c)], or -1. *)
Fixpoint lastIndexOf (c : ascii) (s : string) : Z :=
  match s with
  | EmptyString => -1
  | String x s' =>
      let r := lastIndexOf c s' in
      if decide (0 ≤ r) then r + 1
      else if Ascii.eqb x c then 0 else -1
  end.

(** The separators of [/[\/\\]/]. *)
Definition is_separator (c : ascii) : bool :=
  Ascii.eqb c "/" || Ascii.eqb c "\".

Fixpoint has_separator (s : string) : bool :=
  match s with
  | EmptyString => false
  | String c s' => is_separator c || has_separator s'
  end.

(** [s.split(/[\/\\]/).pop()] *)
Fixpoint last_part (s : string) : string :=
  match s with
  | EmptyString => EmptyString
  | String c s' => if has_separator s then last_part s' else s
  end.

(** [s.split(/[\/\\]/)[0]] *)
Fixpoint first_part (s : string) : string :=
  match s with
  | EmptyString => EmptyString
  | String c s' => if is_separator c then EmptyString else String c (first_part s')
  end.

(** The object [{ display, full }] of the two formatters. *)
Record Formatted := {
  shown_text : string;
  full_text : string;
}.

Definition unknown_name : Formatted :=
  {| shown_text := "Unknown"; full_text := "Unknown" |}.

(** [formatFilename(path, maxLength)] *)
Definition formatFilename (path : option string) (maxLength : Z) : Formatted :=
  match truthy path with
  | None => unknown_name
  | Some path =>
      let filename := default path (truthy (Some (last_part path))) in
      if decide (Z.of_nat (String.length filename) ≤ maxLength) then
        {| shown_text := filename; full_text := filename |}
      else
        let lastDot := lastIndexOf "." filename in
        let ext := if decide (0 < lastDot) then slice filename lastDot None
                   else EmptyString in
        let name := if decide (0 < lastDot) then slice filename 0 (Some lastDot)
                    else filename in
        let availableLength := maxLength - Z.of_nat (String.length ext) - 3 in
        if decide (availableLength < 8) then
          {| shown_text := (slice filename 0 (Some (maxLength - 3)) +:+ "...")%string;
             full_text := filename |}
        else
          let frontLength := (availableLength + 1) / 2 in
          let backLength := availableLength / 2 in
          {| shown_text :=
               (slice name 0 (Some frontLength) +:+ "..." +:+
                slice name (- backLength) None +:+ ext)%string;
             full_text := filename |}
  end.

(** [formatPath(path, maxLength)] *)
Definition formatPath (path : option string) (maxLength : Z) : Formatted :=
  match truthy path with
  | None => unknown_name
  | Some path =>
      if decide (Z.of_nat (String.length path) ≤ maxLength) then
        {| shown_text := path; full_text := path |}
      else if negb (has_separator path) then formatFilename (Some path) maxLength
      else
        let filename := last_part path in
        let firstDir := first_part path in
        let formatted :=
          (firstDir +:+ "\..." +:+
           (if decide (40 < Z.of_nat (String.length filename))
            then shown_text (formatFilename (Some filename) 40)
            else filename))%string in
        if decide (Z.of_nat (String.length formatted) ≤ maxLength) then
          {| shown_text := formatted; full_text := path |}
        else
          {| shown_text := (slice path 0 (Some (maxLength - 3)) +:+ "...")%string;
             full_text := path |}
  end.

(** The text [fixed1] prints for a number of tenths. *)
Definition print_tenths (tenths : Z) : string :=
  if decide (tenths `mod` 10 = 0) then pretty (tenths / 10)
  else (pretty (tenths / 10) +:+ "." +:+ pretty (tenths `mod` 10))%string.

(** ** The auto-open preference *)

(** [localStorage], a map from keys to strings. *)
Definition autoOpenKey : string := "modelLinker.autoOpenOnMissing".

(** [isAutoOpenEnabled()] *)
Definition isAutoOpenEnabled (localStorage : gmap string string) : bool :=
  bool_decide (localStorage !! autoOpenKey ≠ Some "false"%string).

(** [setAutoOpenEnabled(enabled)] *)
Definition setAutoOpenEnabled (enabled : bool) (localStorage : gmap string string)
  : gmap string string :=
  <[autoOpenKey := if enabled then "true"%string else "false"%string]> localStorage.

(** The rank [compareMissing] orders by. *)
Definition rank (missing : MissingModel) : bool * Z :=
  (has100 missing, bestConf missing).



Module SampleListeners.

(** An entry with imperfect candidates only, for node 9. *)
Definition fuzzy_entry : MissingModel :=
  {| self_ref := Sample.top_ref 9;
     original_path := Some "checkpoints/model_v1.safetensors"%string;
     matches :=
       Some [Sample.candidate 71; Sample.candidate 90; Sample.candidate 40;
             Sample.candidate 75; Sample.candidate 99; Sample.candidate 80;
             Sample.candidate 70; Sample.candidate 88];
     all_node_refs := Some [Sample.top_ref 9];
     download_source := None |}.

(** An analysis with one entry per node: nodes 11, 9 and 4. *)
Definition analysis : AnalyzeData :=
  {| missing_models := Some [Sample.weak_entry; fuzzy_entry; Sample.perfect_entry];
     total_missing := Some 3 |}.

End SampleListeners.

Module SampleNames.
Definition long_path : string :=
  "checkpoints/sdxl/very_long_model_name_with_many_parts_v1.2.3_fp16_pruned.safetensors".
End SampleNames.

Module SampleDownloads.

(** An entry without local candidates that the popular list can serve. *)
Definition remote_entry : MissingModel :=
  {| self_ref := Sample.top_ref 4;
     original_path := Some "checkpoints/model_v1.safetensors"%string;
     matches := None;
     all_node_refs := Some [Sample.top_ref 4];
     download_source :=
       Some {| url := Some "https://huggingface.co/org/repo/resolve/main/model_v1.safetensors"%string;
               ds_filename := None;
               directory := Some "checkpoints"%string;
               ds_size := Some (SizeNumber 2147483648) |} |}.

Definition downloading : Progress :=
  {| status := "downloading"; progress_filename := "model_v1.safetensors";
     progress_error := None |}.

(** A dialog that tracks two downloads. *)
Definition busy : Dialog GraphPatcher.Graph :=
  {| graph := Some Sample.workflow;
     activeDownloads :=
       {[ "job-1"%string := {| info_missing := remote_entry |};
          "job-2"%string := {| info_missing := Sample.weak_entry |} ]};
     display := Sample.quiet;
     notifications := [];
     requests := [];
     timers := [ {| task := PollDownloadProgress "job-1"; delay := 1000 |};
                 {| task := PollDownloadProgress "job-2"; delay := 1000 |} ] |}.

(** A dialog that has just been constructed over the sample workflow. *)
Definition idle : Dialog GraphPatcher.Graph :=
  {| graph := Some Sample.workflow;
     activeDownloads := ∅;
     display := Sample.quiet;
     notifications := [];
     requests := [];
     timers := [] |}.

End SampleDownloads.

(** ** More of the dialog *)

Section MoreDialog.
Context {Workflow : Type}.

(** The selection loop of [downloadAllMissing]: entries with a perfect
    local match or without a download URL are skipped. *)
Definition toDownload (missingModels : list MissingModel) : list MissingModel :=
  filter
    (λ missing,
       ¬ ((0 < length (filter (λ m, confidence m = 100%Z) (allMatches missing)))%nat ∨
          download_source missing ≫= (λ source, truthy (url source)) = None))
    missingModels.

(** [downloadAllMissing()], up to the calls of [downloadModel] it starts
    without awaiting them: the entries of those calls, in order, and the
    dialog. *)
Definition downloadAllMissing (api : Api Workflow) (d : Dialog Workflow)
  : list MissingModel * Dialog Workflow :=
  match getCurrentWorkflow d with
  | None => ([], showNotification "No workflow loaded" error d)
  | Some workflow =>
      let d := fetchApi (PostAnalyze workflow) d in
      match analyze api workflow with
      | Json analyzeData =>
          let selected := toDownload (Js.or_else (missing_models analyzeData) []) in
          if decide (length selected = 0%nat) then
            ([],
             showNotification
               "No models available for download (all have local matches or no download URLs)."
               info d)
          else
            (selected,
             showNotification
               ("Starting " +:+ pretty (length selected) +:+ " download" +:+
                (if decide (1 < length selected)%nat then "s" else EmptyString) +:+
                "...")%string info d)
      | r =>
          ([],
           showNotification
             ("Error starting downloads: " +:+ failure_message "API error: " r)%string
             error d)
      end
  end.

(** [downloadFromSearch(missing, url, filename, category, btn)] *)
Definition downloadFromSearch (api : Api Workflow) (missing : MissingModel)
    (url_ filename_ category_ : string) (d : Dialog Workflow) : Dialog Workflow :=
  let d := fetchApi (PostDownload url_ filename_ category_) d in
  match download api url_ filename_ category_ with
  | Json data =>
      if started data then
        let d :=
          set_activeDownloads
            (<[download_id data := {| info_missing := missing |}]>
               (activeDownloads d)) d in
        pollDownloadProgress api (download_id data) d
      else
        showNotification
          ("Download failed: " +:+
           default "Download failed"%string (truthy (start_error data)))%string
          error d
  | r =>
      showNotification
        ("Download failed: " +:+ failure_message "Download failed: " r)%string
        error d
  end.

(** [show(workflow = null)] *)
Definition show (api : Api Workflow) (workflow : option Workflow) (d : Dialog Workflow)
  : Dialog Workflow :=
  loadWorkflowData api workflow d.

(** [handleAutoResolveInPopup]: the bulk pass, then the dialog is shown
    with [updatedWorkflow || null]. *)
Definition handleAutoResolveInPopup (api : Api Workflow) (d : Dialog Workflow)
  : Dialog Workflow :=
  let '(updatedWorkflow, d) := autoResolve100Percent api d in
  show api updatedWorkflow d.

(** One thing that happens to the dialog, with the server answering as
    [api] does: a timer fires and its call runs, or the user starts a
    download (from a card or from a search result), resolves an entry,
    runs the bulk pass, or the dialog is shown.  (Cancelling and
    searching only send requests and write to the page.) *)
Inductive DialogStep (api : Api Workflow) (d : Dialog Workflow)
  : Dialog Workflow → Prop :=
| step_timer (before : list Timer) (t : Timer) (after : list Timer) :
    timers d = before ++ t :: after →
    DialogStep api d (runTask api (task t) (set_timers (before ++ after) d))
| step_download (missing : MissingModel) :
    DialogStep api d (downloadModel api missing d)
| step_search_download (missing : MissingModel)
    (url_ filename_ category_ : string) :
    DialogStep api d (downloadFromSearch api missing url_ filename_ category_ d)
| step_resolve (missing : MissingModel) (mdl : option Model) :
    DialogStep api d (resolveModel api missing mdl d)
| step_auto :
    DialogStep api d (autoResolve100Percent api d).2
| step_show (workflow : option Workflow) :
    DialogStep api d (show api workflow d).

(** The dialogs that can come about from one that tracks no download
    (the constructor sets [activeDownloads = {}]).  The server may answer
    differently at each step. *)
Inductive Reachable : Dialog Workflow → Prop :=
| reachable_new (d : Dialog Workflow) : activeDownloads d = ∅ → Reachable d
| reachable_step (api : Api Workflow) (d d' : Dialog Workflow) :
    Reachable d → DialogStep api d d' → Reachable d'.

(** The card of the entry offers the Download button. *)
Definition offers_download (missing : MissingModel) : bool :=
  match renderDownload missing with
  | DownloadButton _ _ _ => true
  | NotNeeded | SearchOnline _ => false
  end.

(** What the dialog displays is the analysis of the workflow that is in
    the graph now (or the message that there is none, or the error of
    the analysis). *)
Definition displays_current (api : Api Workflow) (d : Dialog Workflow) : Prop :=
  match graph d with
  | None => shown (display d) = NoWorkflowLoaded
  | Some w =>
      match analyze api w with
      | Json data =>
          display d = displayMissingModels (size (activeDownloads d)) data
      | r => shown (display d) = LoadError (failure_message "API error: " r)
      end
  end.

(** From [d] to [d'] the graph is kept, or it is patched: [d'] has sent,
    since [d], one resolve batch, with the workflow that was in the graph
    of [d]; the server has accepted that batch, and the graph of [d'] is
    the workflow it returned for it. *)
Definition graph_kept_or_patched (api : Api Workflow) (d d' : Dialog Workflow)
  : Prop :=
  graph d' = graph d ∨
  ∃ w batch w' sent,
    graph d = Some w ∧
    requests d' = requests d ++ sent ∧
    resolve_batches sent = [(w, batch)] ∧
    resolve api w batch = Json (ResolveSuccess w') ∧
    graph d' = Some w'.

(** Every tracked job has a poll waiting. *)
Definition polled (d : Dialog Workflow) : Prop :=
  ∀ downloadId, is_Some (activeDownloads d !! downloadId) →
                poll_scheduled downloadId (timers d).
End MoreDialog.

(** The download requests among the requests, in order. *)
Definition download_requests {Workflow} (rs : list (Request Workflow))
  : list (string * string * string) :=
  omap (λ r, match r with PostDownload u f c => Some (u, f, c) | _ => None end) rs.

(** * Properties *)

(** ** The stable sort *)

Section SortFacts.
Context {A : Type} (cmp : A → A → Z).

Local Abbreviation before := (Js.before cmp).

Lemma insert_perm x l : Js.insert cmp x l ≡ₚ x :: l.
Proof.
  induction l as [|y l IH]; simpl; [done|].
  case_decide; [done|]. rewrite IH. apply Permutation_swap.
Qed.

Lemma sort_perm l : Js.sort cmp l ≡ₚ l.
Proof.
  induction l as [|x l IH]; simpl; [done|].
  unfold Js.sort in IH. by rewrite insert_perm, IH.
Qed.

Lemma sort_elem_of x l : x ∈ Js.sort cmp l ↔ x ∈ l.
Proof. by rewrite sort_perm. Qed.

Lemma sort_length l : length (Js.sort cmp l) = length l.
Proof. by rewrite sort_perm. Qed.

(** A list already in order is left as it is. *)
Lemma sort_sorted_id l : StronglySorted before l → Js.sort cmp l = l.
Proof.
  induction 1 as [|x l Hl IH Hx]; [done|].
  change (Js.sort cmp (x :: l)) with (Js.insert cmp x (Js.sort cmp l)).
  rewrite IH. destruct Hx as [|y l' Hxy _]; simpl; [done|].
  by rewrite decide_True.
Qed.

Hypothesis before_total : ∀ x y, before x y ∨ before y x.
Hypothesis before_trans : ∀ x y z, before x y → before y z → before x z.

Lemma insert_sorted x l :
  StronglySorted before l → StronglySorted before (Js.insert cmp x l).
Proof.
  induction 1 as [|y l Hl IH Hy]; simpl.
  - repeat constructor.
  - case_decide as Hxy.
    + constructor; [by constructor|].
      constructor; [done|]. eapply Forall_impl; [exact Hy|].
      intros z Hz. by eapply before_trans.
    + constructor; [done|].
      rewrite insert_perm. constructor; [|done].
      destruct (before_total x y); [done|done].
Qed.

Lemma sort_sorted l : StronglySorted before (Js.sort cmp l).
Proof.
  induction l as [|x l IH]; simpl; [constructor|]. by apply insert_sorted.
Qed.
End SortFacts.

(** Positions in a strongly sorted list are related. *)
Lemma StronglySorted_lookup {A} (R : A → A → Prop) (l : list A) i j a b :
  StronglySorted R l → (i < j)%nat → l !! i = Some a → l !! j = Some b → R a b.
Proof.
  intros Hl. revert i j. induction Hl as [|x l Hl IH Hx]; intros i j Hij Hi Hj.
  - by rewrite lookup_nil in Hi.
  - destruct j as [|j]; [lia|]. destruct i as [|i]; simpl in *.
    + simplify_eq. rewrite Forall_forall in Hx. apply Hx.
      by eapply list_elem_of_lookup_2.
    + eapply (IH i j); [lia|done..].
Qed.

(** ** Candidate lists *)

Lemma filter_ext_in {A} (P1 P2 : A → Prop)
    `{!∀ x, Decision (P1 x), !∀ x, Decision (P2 x)} (l : list A) :
  (∀ x, x ∈ l → P1 x ↔ P2 x) → filter P1 l = filter P2 l.
Proof.
  induction l as [|x l IH]; intros Hl; [done|].
  rewrite !filter_cons, IH by (intros; apply Hl; by right).
  destruct (decide (P1 x)) as [H1|H1], (decide (P2 x)) as [H2|H2]; try done.
  - destruct H2. apply Hl; [by left|done].
  - destruct H1. apply Hl; [by left|done].
Qed.

Lemma perfectMatches_eq missing :
  perfectMatches missing = filter (λ m, confidence m = 100) (allMatches missing).
Proof. unfold perfectMatches, filteredMatches. apply list_filter_filter_l. intros; lia. Qed.

Lemma otherMatches_eq missing :
  otherMatches missing =
  filter (λ m, confidence m < 100 ∧ 70 ≤ confidence m) (allMatches missing).
Proof. unfold otherMatches, filteredMatches. apply list_filter_filter_l. intros; lia. Qed.


Lemma before_byConfidenceDesc a b :
  Js.before byConfidenceDesc a b ↔ confidence b ≤ confidence a.
Proof. unfold Js.before, byConfidenceDesc. lia. Qed.

Lemma before_perfectFirst a b :
  Js.before perfectFirst a b ↔
  (confidence a = 100 ∧ confidence b ≠ 100) ∨
  ((confidence a = 100 ↔ confidence b = 100) ∧ confidence b ≤ confidence a).
Proof. unfold Js.before, perfectFirst. repeat case_decide; lia. Qed.

(** A list of candidates that all have the same confidence is in order for
    the final comparator, whatever their order. *)
Lemma sorted_perfectFirst_const c (l : list Match) :
  Forall (λ m, confidence m = c) l → StronglySorted (Js.before perfectFirst) l.
Proof.
  induction 1 as [|m l Hm Hl IH]; constructor; [done|].
  eapply Forall_impl; [exact Hl|]. intros m' Hm'. simpl in Hm'.
  apply before_perfectFirst. right. lia.
Qed.

(** Without a candidate at 100 the two comparators agree. *)
Lemma sorted_perfectFirst_desc (l : list Match) :
  Forall (λ m, confidence m ≠ 100) l →
  StronglySorted (Js.before byConfidenceDesc) l →
  StronglySorted (Js.before perfectFirst) l.
Proof.
  intros Hl Hs. induction Hs as [|m l Hs IH Hm]; [constructor|].
  apply Forall_cons in Hl as [Hm100 Hl]. constructor; [by apply IH|].
  rewrite Forall_forall in Hm, Hl |- *. intros m' Hm'.
  specialize (Hm _ Hm'). specialize (Hl _ Hm').
  apply before_byConfidenceDesc in Hm. apply before_perfectFirst. right. lia.
Qed.

Lemma sort_byConfidenceDesc_sorted (l : list Match) :
  StronglySorted (Js.before byConfidenceDesc) (Js.sort byConfidenceDesc l).
Proof.
  apply sort_sorted; unfold Js.before, byConfidenceDesc; intros; lia.
Qed.

Lemma StronglySorted_take {A} (R : A → A → Prop) n (l : list A) :
  StronglySorted R l → StronglySorted R (take n l).
Proof.
  intros Hl. rewrite <-(take_drop n l) in Hl.
  by apply StronglySorted_app_1_l in Hl.
Qed.

Lemma StronglySorted_weaken {A} (R1 R2 : A → A → Prop) (l : list A) :
  (∀ a b, R1 a b → R2 a b) → StronglySorted R1 l → StronglySorted R2 l.
Proof.
  intros HR. induction 1 as [|x l Hl IH Hx]; constructor; [done|].
  eapply Forall_impl; [exact Hx|]. intros; by apply HR.
Qed.

(** With a perfect candidate, exactly the perfect candidates are shown, in
    the order of the analysis. *)
Lemma sortedMatches_perfect missing :
  (0 < length (perfectMatches missing))%nat →
  sortedMatches missing = perfectMatches missing.
Proof.
  intros H. unfold sortedMatches, matchesToShow. rewrite decide_True by done.
  apply sort_sorted_id, (sorted_perfectFirst_const 100).
  unfold perfectMatches. apply Forall_forall. intros m Hm.
  by apply list_elem_of_filter in Hm as [? _].
Qed.

(** Without one, the five best of the others are shown. *)
Lemma sortedMatches_other missing :
  ¬ (0 < length (perfectMatches missing))%nat →
  sortedMatches missing = take 5 (Js.sort byConfidenceDesc (otherMatches missing)).
Proof.
  intros H. unfold sortedMatches, matchesToShow. rewrite decide_False by done.
  apply sort_sorted_id, sorted_perfectFirst_desc.
  - apply Forall_forall. intros m Hm. apply elem_of_take in Hm as (i & Hm & _).
    apply list_elem_of_lookup_2, sort_elem_of in Hm.
    unfold otherMatches in Hm. apply list_elem_of_filter in Hm as [[? _] _]. lia.
  - apply StronglySorted_take, sort_byConfidenceDesc_sorted.
Qed.

Lemma fmap_imap_inv {A B} (g : B → A) (f : nat → A → B) (l : list A) :
  (∀ i x, g (f i x) = x) → g <$> imap f l = l.
Proof.
  revert f. induction l as [|x l IH]; intros f Hf; simpl; [done|].
  rewrite Hf. f_equal. apply IH. intros i y. apply Hf.
Qed.

Lemma row_match_imap missing (l : list Match) :
  row_match <$> imap (renderRow missing) l = l.
Proof. by apply fmap_imap_inv. Qed.

Lemma filtered_nonempty missing m :
  m ∈ allMatches missing → 70 ≤ confidence m →
  (0 < length (filteredMatches missing))%nat.
Proof.
  intros Hm H70. assert (m ∈ filteredMatches missing) as Hin.
  { unfold filteredMatches. by apply list_elem_of_filter. }
  destruct (filteredMatches missing); [by apply elem_of_nil in Hin|simpl; lia].
Qed.

Lemma nonempty_elem {A} (l : list A) : (0 < length l)%nat → ∃ x, x ∈ l.
Proof. destruct l as [|x l]; simpl; [lia|]. exists x. by left. Qed.

Lemma offered_eq missing :
  offered (renderMissingModel missing) =
  if decide (0 < length (filteredMatches missing))%nat
  then sortedMatches missing else [].
Proof.
  unfold offered, renderMissingModel, renderLocal; simpl.
  repeat case_decide; simpl; try done. apply row_match_imap.
Qed.

Lemma sortedMatches_elem missing m :
  m ∈ sortedMatches missing → m ∈ allMatches missing ∧ 70 ≤ confidence m.
Proof.
  destruct (decide (0 < length (perfectMatches missing))%nat) as [H|H].
  - rewrite sortedMatches_perfect, perfectMatches_eq by done.
    intros [? ?]%list_elem_of_filter. split; [done|lia].
  - rewrite sortedMatches_other, otherMatches_eq by done.
    intros (i & Hm & _)%elem_of_take.
    apply list_elem_of_lookup_2, sort_elem_of in Hm.
    apply list_elem_of_filter in Hm as [[? ?] ?]. done.
Qed.

(** C3: when an entry has a candidate at confidence 100, its card offers
    exactly the confidence-100 candidates with a Link button, so every
    candidate between 70 and 99 is withheld; the number of withheld
    candidates is what the card reports in its note (the note is left out
    when nothing is withheld). *)
Theorem perfect_candidates_only (missing : MissingModel) :
  (∃ m, m ∈ allMatches missing ∧ confidence m = 100) →
  let card := renderMissingModel missing in
  let withheld :=
    length (filter (λ m, 70 ≤ confidence m ≤ 99) (allMatches missing)) in
  offered card = filter (λ m, confidence m = 100) (allMatches missing) ∧
  (∀ m, m ∈ allMatches missing → 70 ≤ confidence m ≤ 99 → m ∉ offered card) ∧
  reported_others card = (if decide (0 < withheld)%nat then Some withheld else None).
Proof.
  intros (m & Hm & H100) card withheld.
  assert (0 < length (filteredMatches missing))%nat as Hf
    by (eapply filtered_nonempty; [done|lia]).
  assert (0 < length (perfectMatches missing))%nat as Hp.
  { assert (m ∈ perfectMatches missing) as Hin
      by (rewrite perfectMatches_eq; by apply list_elem_of_filter).
    destruct (perfectMatches missing); [by apply elem_of_nil in Hin|simpl; lia]. }
  assert (offered card = filter (λ m, confidence m = 100) (allMatches missing)) as Ho.
  { subst card. rewrite offered_eq, decide_True by done.
    by rewrite sortedMatches_perfect, perfectMatches_eq. }
  assert (length (otherMatches missing) = withheld) as Hw.
  { rewrite otherMatches_eq. subst withheld. f_equal.
    apply list_filter_iff. intros x. lia. }
  split_and!.
  - done.
  - intros x _ Hx. rewrite Ho. intros [? _]%list_elem_of_filter. lia.
  - subst card. unfold reported_others, renderMissingModel, renderLocal; simpl.
    rewrite decide_True by done. rewrite Hw.
    destruct (decide (0 < withheld)%nat).
    + rewrite decide_True; done.
    + rewrite decide_False; [done|]. lia.
Qed.

(** C8: a card only offers candidates of the entry with confidence at least
    70, and an entry none of whose candidates reaches 70 (in particular an
    entry without candidates) still gets its card, which is marked as
    having no local match. *)
Theorem candidates_at_least_70 (missing : MissingModel) :
  let card := renderMissingModel missing in
  card_missing card = missing ∧
  (∀ m, m ∈ offered card → m ∈ allMatches missing ∧ 70 ≤ confidence m) ∧
  ((∀ m, m ∈ allMatches missing → confidence m < 70) ↔ marked_no_local_match card).
Proof.
  intros card. split_and!.
  - done.
  - subst card. intros m. rewrite offered_eq. case_decide.
    + apply sortedMatches_elem.
    + by intros ?%elem_of_nil.
  - subst card. unfold marked_no_local_match, renderMissingModel, renderLocal; simpl.
    split.
    + intros Hlow. rewrite decide_False.
      * case_decide; auto.
      * intros (m & Hm)%nonempty_elem. unfold filteredMatches in Hm.
        apply list_elem_of_filter in Hm as [H70 Hm]. specialize (Hlow _ Hm). lia.
    + intros Hmark m Hm. destruct (decide (70 ≤ confidence m)) as [H70|]; [|lia].
      rewrite decide_True in Hmark by (by eapply filtered_nonempty).
      by destruct Hmark.
Qed.

(** C9: when no candidate of an entry is at confidence 100 (confidences
    being within 0..100), the card offers at most five candidates: the
    candidates at or above 70 sorted by confidence, highest first, cut
    after the fifth.  Whatever is cut is at or above 70 as well and no
    better than anything shown. *)
Theorem five_best_candidates (missing : MissingModel) :
  (∀ m, m ∈ allMatches missing → 0 ≤ confidence m ≤ 100) →
  (∀ m, m ∈ allMatches missing → confidence m ≠ 100) →
  let card := renderMissingModel missing in
  let eligible := filter (λ m, 70 ≤ confidence m) (allMatches missing) in
  offered card = take 5 (Js.sort byConfidenceDesc eligible) ∧
  length (offered card) = (length eligible `min` 5)%nat ∧
  StronglySorted (λ a b, confidence b ≤ confidence a) (offered card) ∧
  ∃ omitted,
    offered card ++ omitted ≡ₚ eligible ∧
    length omitted = (length eligible - 5)%nat ∧
    ∀ a b, a ∈ offered card → b ∈ omitted → confidence b ≤ confidence a.
Proof.
  intros Hrange Hno card eligible.
  assert (otherMatches missing = eligible) as Hother.
  { rewrite otherMatches_eq. subst eligible. apply filter_ext_in. intros m Hm.
    specialize (Hrange _ Hm). specialize (Hno _ Hm). lia. }
  assert (¬ (0 < length (perfectMatches missing))%nat) as Hp.
  { intros (m & Hm)%nonempty_elem. rewrite perfectMatches_eq in Hm.
    apply list_elem_of_filter in Hm as [? Hm]. by apply (Hno m). }
  assert (offered card = take 5 (Js.sort byConfidenceDesc eligible)) as Ho.
  { subst card. rewrite offered_eq. case_decide as Hf.
    - by rewrite sortedMatches_other, Hother.
    - assert (eligible = []) as ->.
      { subst eligible. fold (filteredMatches missing).
        destruct (filteredMatches missing); [done|simpl in Hf; lia]. }
      done. }
  pose proof (sort_byConfidenceDesc_sorted eligible) as Hs.
  split_and!.
  - done.
  - rewrite Ho, length_take, sort_length. lia.
  - rewrite Ho. apply StronglySorted_take.
    eapply StronglySorted_weaken; [|exact Hs].
    intros a b. by rewrite before_byConfidenceDesc.
  - exists (drop 5 (Js.sort byConfidenceDesc eligible)). rewrite Ho. split_and!.
    + by rewrite take_drop, sort_perm.
    + rewrite length_drop, sort_length. done.
    + intros a b Ha Hb. apply before_byConfidenceDesc.
      rewrite <-(take_drop 5 (Js.sort byConfidenceDesc eligible)) in Hs.
      by eapply StronglySorted_app_1_elem_of.
Qed.

(** ** Listeners *)

Lemma omap_guard_id {A} (P : A → Prop) `{!∀ x, Decision (P x)} (l : list A) :
  Forall P l → omap (λ x, if decide (P x) then Some x else None) l = l.
Proof.
  induction 1 as [|x l Hx Hl IH]; simpl; [done|].
  rewrite decide_True by done. simpl. f_equal. exact IH.
Qed.





(** ** Order of the cards *)

Lemma has100_spec missing : has100 missing = true ↔ has_perfect missing.
Proof.
  unfold has100, Js.some, has_perfect. rewrite existsb_exists. split.
  - intros (m & Hm & Hc). exists m. apply bool_decide_eq_true in Hc.
    apply list_elem_of_In in Hm. unfold filteredMatches in Hm.
    apply list_elem_of_filter in Hm as [? ?]. done.
  - intros (m & Hm & H70 & Hc). exists m. split.
    + apply list_elem_of_In. unfold filteredMatches. by apply list_elem_of_filter.
    + by apply bool_decide_eq_true.
Qed.

Lemma max_of_spec x l :
  (Js.max_of x l = x ∨ Js.max_of x l ∈ l) ∧
  x ≤ Js.max_of x l ∧ ∀ y, y ∈ l → y ≤ Js.max_of x l.
Proof.
  induction l as [|z l (Hin & Hx & Hl)]; simpl.
  - split_and!; [by left|lia|]. by intros y ?%elem_of_nil.
  - split_and!.
    + destruct (Z.max_spec z (Js.max_of x l)) as [[_ ->]|[_ ->]].
      * destruct Hin as [->|Hin]; [by left|]. right. by right.
      * right. by left.
    + lia.
    + intros y [->|Hy]%elem_of_cons; [lia|]. specialize (Hl _ Hy). lia.
Qed.

Lemma bestConf_spec missing : best_confidence missing (bestConf missing).
Proof.
  unfold bestConf, best_confidence.
  destruct (confidence <$> filteredMatches missing) as [|c cs] eqn:Hf.
  - left. split; [done|]. intros m Hm.
    destruct (decide (70 ≤ confidence m)) as [H70|]; [|lia].
    apply fmap_nil_inv in Hf.
    assert (m ∈ filteredMatches missing) as Hin
      by (unfold filteredMatches; by apply list_elem_of_filter).
    rewrite Hf in Hin. by apply elem_of_nil in Hin.
  - right. destruct (max_of_spec c cs) as (Hin & Hc & Hcs).
    assert (∀ y, y ∈ c :: cs ↔
              ∃ m, m ∈ allMatches missing ∧ 70 ≤ confidence m ∧ confidence m = y)
      as Hchar.
    { intros y. rewrite <-Hf, list_elem_of_fmap. unfold filteredMatches.
      split.
      - intros (m & -> & [? ?]%list_elem_of_filter). by exists m.
      - intros (m & ? & ? & <-). exists m. split; [done|].
        by apply list_elem_of_filter. }
    split.
    + apply Hchar. destruct Hin as [->|Hin]; [by left|by right].
    + intros m Hm H70.
      assert (confidence m ∈ c :: cs) as [->|Hy]%elem_of_cons
        by (apply Hchar; by exists m); [done|by apply Hcs].
Qed.

Lemma best_confidence_unique missing c1 c2 :
  best_confidence missing c1 → best_confidence missing c2 → c1 = c2.
Proof.
  intros [[-> H1]|[(m1 & Hm1 & H70 & <-) Hmax1]]
         [[-> H2]|[(m2 & Hm2 & H70' & <-) Hmax2]].
  - done.
  - specialize (H1 _ Hm2). lia.
  - specialize (H2 _ Hm1). lia.
  - specialize (Hmax1 _ Hm2 H70'). specialize (Hmax2 _ Hm1 H70). lia.
Qed.

Lemma before_compareMissing a b :
  Js.before compareMissing a b ↔
  (has100 a = true ∧ has100 b = false) ∨
  (has100 a = has100 b ∧ bestConf b ≤ bestConf a).
Proof.
  unfold Js.before, compareMissing.
  destruct (has100 a), (has100 b); simpl;
    intuition (try discriminate; try lia).
Qed.

Lemma sortedMissingModels_sorted l :
  StronglySorted (Js.before compareMissing) (sortedMissingModels l).
Proof.
  apply sort_sorted.
  - intros a b. rewrite !before_compareMissing.
    destruct (has100 a), (has100 b); intuition (try discriminate; try lia).
  - intros a b c. rewrite !before_compareMissing.
    destruct (has100 a), (has100 b), (has100 c);
      intuition (try discriminate; try lia).
Qed.

Lemma displayed_eq activeCount data :
  displayed (displayMissingModels activeCount data) = [] ∨
  displayed (displayMissingModels activeCount data) =
    sortedMissingModels (Js.or_else (missing_models data) []).
Proof.
  unfold displayed, displayMissingModels; simpl.
  repeat case_decide; auto. right.
  rewrite <-list_fmap_compose. apply list_fmap_id.
Qed.

(** C1: on display, every entry with a perfect candidate (confidence 100,
    among the candidates at or above 70) stands above every entry without
    one, and two entries of the same group stand in descending order of
    their best confidence at or above 70 (0 for an entry without such a
    candidate).  What is on display is a rearrangement of the analysis
    result. *)
Theorem display_order (activeCount : nat) (data : AnalyzeData)
    (total : Z) (ac : nat) (cards : list Card) (ls : list ResolveListener) :
  shown (displayMissingModels activeCount data) = MissingList total ac cards ls →
  let entries := card_missing <$> cards in
  entries ≡ₚ Js.or_else (missing_models data) [] ∧
  ∀ i j a b, (i < j)%nat → entries !! i = Some a → entries !! j = Some b →
    (has_perfect b → has_perfect a) ∧
    ((has_perfect a ↔ has_perfect b) →
     ∀ ca cb, best_confidence a ca → best_confidence b cb → cb ≤ ca).
Proof.
  intros Hshown entries.
  assert (entries = sortedMissingModels (Js.or_else (missing_models data) []))
    as Hentries.
  { subst entries. revert Hshown. unfold displayMissingModels; simpl.
    repeat case_decide; try done. intros [= _ _ <- _].
    rewrite <-list_fmap_compose. apply list_fmap_id. }
  split.
  - rewrite Hentries. apply sort_perm.
  - intros i j a b Hij Ha Hb.
    assert (Js.before compareMissing a b) as Hab.
    { eapply StronglySorted_lookup; [|exact Hij|exact Ha|exact Hb].
      rewrite Hentries. apply sortedMissingModels_sorted. }
    apply before_compareMissing in Hab. rewrite <-!has100_spec. split.
    + destruct Hab as [[? ?]|[? ?]]; congruence.
    + intros Hsame ca cb Hca Hcb.
      rewrite (best_confidence_unique _ _ _ Hca (bestConf_spec a)).
      rewrite (best_confidence_unique _ _ _ Hcb (bestConf_spec b)).
      destruct Hab as [[? ?]|[? ?]]; [|done].
      destruct Hsame as [Hsame _]. specialize (Hsame ltac:(done)). congruence.
Qed.

(** ** [formatBytes] *)

Lemma log1024_bounds b :
  0 < b →
  0 ≤ log1024 b ∧ 1024 ^ log1024 b ≤ b < 1024 ^ (log1024 b + 1).
Proof.
  intros Hb. unfold log1024.
  pose proof (Z.log2_nonneg b) as Hl.
  destruct (Z.log2_spec b Hb) as [Hlo Hhi].
  set (l := Z.log2 b) in *. set (i := l / 10).
  assert (10 * i ≤ l < 10 * i + 10) as [Hi1 Hi2]
    by (subst i; pose proof (Z.div_mod l 10); pose proof (Z.mod_pos_bound l 10); lia).
  assert (0 ≤ i) as Hi0 by lia.
  assert (∀ n, 0 ≤ n → 1024 ^ n = 2 ^ (10 * n)) as Hpow
    by (intros n Hn; rewrite Z.pow_mul_r by lia; done).
  rewrite !Hpow by lia. split; [done|]. split.
  - etrans; [|exact Hlo]. apply Z.pow_le_mono_r; lia.
  - eapply Z.lt_le_trans; [exact Hhi|]. apply Z.pow_le_mono_r; lia.
Qed.

Lemma fixed1_numeral b d :
  0 < d → d ≤ b < 1024 * d → numeral (fixed1 b d).
Proof.
  intros Hd [Hlo Hhi]. unfold fixed1.
  set (t := (20 * b + d) / (2 * d)).
  assert (10 ≤ t ≤ 10240) as Ht.
  { subst t. split.
    - apply Z.div_le_lower_bound; lia.
    - apply Z.lt_succ_r, Z.div_lt_upper_bound; lia. }
  exists (t / 10), (t `mod` 10).
  pose proof (Z.div_mod t 10). pose proof (Z.mod_pos_bound t 10).
  split_and!; try lia. done.
Qed.

Lemma formatBytes_pos b :
  0 < b →
  formatBytes b =
    (fixed1 b (1024 ^ log1024 b) +:+ " " +:+ unit_at (log1024 b))%string.
Proof.
  intros Hb. unfold formatBytes. rewrite !decide_False by lia. done.
Qed.

(** C10: [formatBytes 0] is "0 B"; a byte count from 1 up to, but not
    including, 1024^4 is printed as a numeral followed by one of the four
    units; from 1024^4 on the index is past the end of the unit table and
    the text ends in "undefined". *)
Theorem formatBytes_units :
  formatBytes 0 = "0 B"%string ∧
  (∀ b, 1 ≤ b < 1024 ^ 4 →
     ∃ num unit, formatBytes b = (num +:+ " " +:+ unit)%string ∧
                 numeral num ∧ unit ∈ sizes) ∧
  (∀ b, 1024 ^ 4 ≤ b →
     sizes !! Z.to_nat (log1024 b) = None ∧
     ∃ num, formatBytes b = (num +:+ " " +:+ "undefined")%string).
Proof.
  split_and!.
  - reflexivity.
  - intros b [Hlo Hhi].
    destruct (log1024_bounds b) as (Hi0 & Hi1 & Hi2); [lia|].
    assert (log1024 b < 4) as Hi4.
    { destruct (decide (log1024 b < 4)) as [|Hge]; [done|].
      assert (1024 ^ 4 ≤ 1024 ^ log1024 b) by (apply Z.pow_le_mono_r; lia). lia. }
    rewrite formatBytes_pos by lia.
    exists (fixed1 b (1024 ^ log1024 b)), (unit_at (log1024 b)). split_and!.
    + done.
    + apply fixed1_numeral.
      * apply Z.pow_pos_nonneg; lia.
      * rewrite Z.pow_add_r in Hi2 by lia. lia.
    + assert (log1024 b = 0 ∨ log1024 b = 1 ∨ log1024 b = 2 ∨ log1024 b = 3)
        as [-> | [-> | [-> | ->]]] by lia; vm_compute; set_solver.
  - intros b Hb.
    destruct (log1024_bounds b) as (Hi0 & Hi1 & Hi2); [lia|].
    assert (4 ≤ log1024 b) as Hi4.
    { destruct (decide (4 ≤ log1024 b)) as [|Hlt]; [done|].
      assert (1024 ^ (log1024 b + 1) ≤ 1024 ^ 4) by (apply Z.pow_le_mono_r; lia).
      lia. }
    assert (sizes !! Z.to_nat (log1024 b) = None) as Hnone.
    { apply lookup_ge_None. simpl. lia. }
    split; [done|]. rewrite formatBytes_pos by lia.
    exists (fixed1 b (1024 ^ log1024 b)). unfold unit_at.
    rewrite decide_True by done. by rewrite Hnone.
Qed.

Lemma formatBytes_units_witness :
  (1 ≤ 1536 < 1024 ^ 4 ∧
   ∃ num unit, formatBytes 1536 = (num +:+ " " +:+ unit)%string ∧
               numeral num ∧ unit ∈ sizes) ∧
  (1024 ^ 4 ≤ 2 * 1024 ^ 4 ∧
   sizes !! Z.to_nat (log1024 (2 * 1024 ^ 4)) = None ∧
   ∃ num, formatBytes (2 * 1024 ^ 4) = (num +:+ " " +:+ "undefined")%string).
Proof.
  destruct formatBytes_units as (_ & Hunit & Hundef). split.
  - split; [lia|]. apply Hunit. lia.
  - split; [lia|]. apply Hundef. lia.
Defined.

(** ** The Graph Patcher *)

Section KeyedFacts.
Import GraphPatcher.
Context {K A : Type} `{EqDecision K} (key : A → K) (f : A → option A).
Hypothesis f_key : ∀ x y, f x = Some y → key y = key x.

Lemma update_key_None k l :
  update_key key k f l = None ↔ lookup_key key k l ≫= f = None.
Proof.
  induction l as [|x l IH]; simpl; [done|]. case_decide; simpl.
  - by rewrite fmap_None.
  - by rewrite fmap_None.
Qed.

Lemma lookup_update_key k k' l l' :
  update_key key k f l = Some l' →
  lookup_key key k' l' =
    if decide (k' = k) then lookup_key key k l ≫= f else lookup_key key k' l.
Proof.
  revert l'. induction l as [|x l IH]; intros l'; simpl; [done|].
  destruct (decide (key x = k)) as [Hx|Hx]; simpl.
  - intros (y & Hy & ->)%fmap_Some. simpl. rewrite Hy. simpl.
    rewrite (f_key _ _ Hy). subst k.
    destruct (decide (key x = k')) as [->|Hk'].
    + by rewrite decide_True.
    + rewrite decide_False by done. done.
  - intros (r & Hr & ->)%fmap_Some. simpl. rewrite (IH _ Hr).
    destruct (decide (key x = k')) as [Hk'|Hk']; [|done].
    rewrite decide_False by congruence. done.
Qed.
End KeyedFacts.

Module PatcherFacts.
Import GraphPatcher.

Lemma write_node_id i v n n' : write_node i v n = Some n' → id n' = id n.
Proof. unfold write_node. case_decide; [|done]. by intros [= <-]. Qed.

Lemma write_node_None i v n : write_node i v n = None ↔ read_node i n = None.
Proof.
  unfold write_node, read_node. repeat case_decide; try done; try lia.
  - split; [done|]. intros Hn%lookup_ge_None. lia.
  - split; [|done]. intros _. apply lookup_ge_None. lia.
Qed.

Lemma read_write_node i j v n n' :
  write_node i v n = Some n' →
  read_node j n' = if decide (j = i) then Some v else read_node j n.
Proof.
  unfold write_node, read_node. case_decide as Hi; [|done]. intros [= <-]; simpl.
  destruct (decide (j = i)) as [->|Hji].
  - rewrite decide_True by lia. apply list_lookup_insert_eq. lia.
  - case_decide; [|done]. apply list_lookup_insert_ne. lia.
Qed.

Lemma read_update_nodes p ns ns' n i :
  write_nodes p ns = Some ns' →
  lookup_key id n ns' ≫= read_node i =
    if decide (n = nodeId p ∧ i = widgetIndex p) then Some (newPath p)
    else lookup_key id n ns ≫= read_node i.
Proof.
  unfold write_nodes. intros Hup.
  rewrite (lookup_update_key id _ (write_node_id _ _) _ _ _ _ Hup).
  destruct (decide (n = nodeId p)) as [->|Hn].
  - assert (is_Some (lookup_key id (nodeId p) ns ≫=
                     write_node (widgetIndex p) (newPath p))) as [n' Hn'].
    { apply not_eq_None_Some. intros Hnone.
      apply (update_key_None id) in Hnone. congruence. }
    rewrite Hn'. apply bind_Some in Hn' as (x & -> & Hx). simpl.
    rewrite (read_write_node _ _ _ _ _ Hx).
    destruct (decide (i = widgetIndex p)) as [->|Hi].
    + by rewrite decide_True.
    + rewrite decide_False by (intros [_ ?]; done). done.
  - rewrite decide_False by (intros [? _]; done). done.
Qed.

Lemma update_nodes_None p ns :
  write_nodes p ns = None ↔
  lookup_key id (nodeId p) ns ≫= read_node (widgetIndex p) = None.
Proof.
  unfold write_nodes. rewrite update_key_None, !bind_None.
  split; (intros [?|(x & ? & Hx)]; [by left|right; exists x; split; [done|]]).
  - by apply (write_node_None _ (newPath p)).
  - by apply write_node_None.
Qed.

Lemma write_definition_id p def def' :
  write_definition p def = Some def' → definition_id def' = definition_id def.
Proof. by intros (ns & _ & ->)%fmap_Some. Qed.

(** What a graph holds after one patch. *)
Lemma read_patch g p g' s :
  patch g p = Some g' →
  read g' s = if decide (s = slot p) then Some (newPath p) else read g s.
Proof.
  unfold patch, slot. destruct s as [[sg n] i].
  destruct (subgraphId p) as [sgid|] eqn:Hsg.
  - intros (sgs & Hsgs & ->)%fmap_Some. simpl.
    destruct sg as [sg|]; [|by rewrite decide_False by congruence].
    rewrite (lookup_update_key definition_id _ (write_definition_id p) _ _ _ _ Hsgs).
    destruct (decide (sg = sgid)) as [->|Hne];
      [|by rewrite decide_False by congruence].
    assert (is_Some (lookup_key definition_id sgid (subgraphs g)
                       ≫= write_definition p)) as [def' Hdef'].
    { apply not_eq_None_Some. intros Hnone.
      apply (update_key_None definition_id) in Hnone. congruence. }
    rewrite Hdef'. apply bind_Some in Hdef' as (def & -> & Hdef). simpl.
    apply fmap_Some in Hdef as (ns & Hns & ->). simpl.
    rewrite (read_update_nodes _ _ _ _ _ Hns).
    destruct (decide (n = nodeId p ∧ i = widgetIndex p)) as [[-> ->]|Hni].
    + by rewrite decide_True.
    + rewrite decide_False; [done|]. intros [= -> ->]. by apply Hni.
  - intros (ns & Hns & ->)%fmap_Some. simpl.
    destruct sg as [sg|]; [by rewrite decide_False by congruence|].
    rewrite (read_update_nodes _ _ _ _ _ Hns).
    destruct (decide (n = nodeId p ∧ i = widgetIndex p)) as [[-> ->]|Hni].
    + by rewrite decide_True.
    + rewrite decide_False; [done|]. intros [= -> ->]. by apply Hni.
Qed.

(** A patch is refused exactly when its slot does not exist. *)
Lemma patch_None g p : patch g p = None ↔ read g (slot p) = None.
Proof.
  unfold patch, slot, read. destruct (subgraphId p) as [sgid|].
  - rewrite fmap_None, update_key_None, !bind_None.
    split; (intros [?|(def & ? & Hdef)]; [by left|right; exists def; split; [done|]]).
    + apply fmap_None in Hdef. by apply update_nodes_None.
    + apply fmap_None. by apply update_nodes_None.
  - rewrite fmap_None. apply update_nodes_None.
Qed.




(** A batch whose patches all refer to existing slots goes through. *)
Lemma apply_total ps : ∀ g,
  (∀ p, p ∈ ps → is_Some (read g (slot p))) → ∃ g', apply g ps = inl g'.
Proof.
  induction ps as [|p0 ps IH]; intros g Hall; simpl; [by eexists|].
  destruct (patch g p0) as [g1|] eqn:Hp.
  - apply IH. intros p Hin. rewrite (read_patch _ _ _ _ Hp).
    case_decide; [by eexists|]. apply Hall. by right.
  - apply patch_None in Hp. destruct (Hall p0) as [v Hv]; [by left|]. congruence.
Qed.
End PatcherFacts.

(** ** The error text of the Graph Patcher *)















(** ** The dialog *)

Lemma find_Some {A} (p : A → bool) (l : list A) x :
  Js.find p l = Some x → x ∈ l ∧ p x = true.
Proof.
  induction l as [|y l IH]; simpl; [done|].
  destruct (p y) eqn:Hy.
  - intros [= ->]. split; [by left|done].
  - intros [? ?]%IH. split; [by right|done].
Qed.


Section DialogFacts.
Context {Workflow : Type}.
Implicit Types (api : Api Workflow) (d : Dialog Workflow).

Lemma resolve_batches_app (r1 r2 : list (Request Workflow)) :
  resolve_batches (r1 ++ r2) = resolve_batches r1 ++ resolve_batches r2.
Proof. apply omap_app. Qed.

Lemma analyzed_app (r1 r2 : list (Request Workflow)) :
  analyzed (r1 ++ r2) = analyzed r1 ++ analyzed r2.
Proof. apply omap_app. Qed.

(** Reloading the dialog only renders and asks for an analysis. *)
Lemma loadWorkflowData_frame api w d :
  let d' := loadWorkflowData api w d in
  graph d' = graph d ∧
  activeDownloads d' = activeDownloads d ∧
  notifications d' = notifications d ∧
  timers d' = timers d ∧
  resolve_batches (requests d') = resolve_batches (requests d) ∧
  ∃ later, requests d' = requests d ++ later.
Proof.
  unfold loadWorkflowData, getCurrentWorkflow. cbv zeta. simpl.
  destruct w as [w|]; [|destruct (graph d) as [w|] eqn:Hg]; simpl.
  3: { split_and!; try done. exists []. by rewrite app_nil_r. }
  all: destruct (analyze api w); simpl; rewrite ?resolve_batches_app; simpl;
    rewrite ?app_nil_r; split_and!; try done; by eexists.
Qed.

(** The batch [resolveModel] sends for an entry and a chosen file. *)
Lemma resolveModel_batch api missing mdl d w :
  graph d = Some w →
  resolve_batches (requests (resolveModel api missing (Some mdl) d)) =
  resolve_batches (requests d) ++ [(w, resolution_of mdl <$> nodeRefs missing)].
Proof.
  intros Hw. unfold resolveModel, getCurrentWorkflow. rewrite Hw.
  destruct (resolve api w _) as [msg|code|[w'|e]]; simpl;
    rewrite ?resolve_batches_app; try done.
  match goal with
  | |- context [loadWorkflowData ?a ?b ?c] =>
      destruct (loadWorkflowData_frame a b c) as (_ & _ & _ & _ & -> & _)
  end.
  unfold updateWorkflowInComfyUI. simpl. rewrite Hw. simpl.
  by rewrite resolve_batches_app.
Qed.

(** The graph of the dialog after [resolveModel]: the workflow the server
    returned on success, the old one in every other case. *)
Lemma resolveModel_graph api missing mdl d w :
  graph d = Some w →
  graph (resolveModel api missing (Some mdl) d) =
    match resolve api w (resolution_of mdl <$> nodeRefs missing) with
    | Json (ResolveSuccess w') => Some w'
    | _ => Some w
    end.
Proof.
  intros Hw. unfold resolveModel, getCurrentWorkflow. rewrite Hw.
  destruct (resolve api w _) as [msg|code|[w'|e]]; simpl; try done.
  match goal with
  | |- context [loadWorkflowData ?a ?b ?c] =>
      destruct (loadWorkflowData_frame a b c) as (-> & _)
  end.
  unfold updateWorkflowInComfyUI. simpl. by rewrite Hw.
Qed.

Lemma carries_resolution_of mdl (refs : list NodeRef) :
  Forall2 (carries mdl) (resolution_of mdl <$> refs) refs.
Proof. induction refs; constructor; [by repeat split|done]. Qed.

(** C2: resolving an entry with a chosen file sends one batch, which
    holds one resolution per member of the entry's [all_node_refs], in
    order; each resolution has the node id, widget index, subgraph id and
    top-level flag of its reference, and all have the path of the chosen
    file. *)
Theorem resolveModel_every_reference api
    (missing : MissingModel) (refs : list NodeRef) (mdl : Model) d (w : Workflow) :
  all_node_refs missing = Some refs →
  graph d = Some w →
  ∃ batch,
    resolve_batches (requests (resolveModel api missing (Some mdl) d)) =
      resolve_batches (requests d) ++ [(w, batch)] ∧
    Forall2 (carries mdl) batch refs.
Proof.
  intros Hrefs Hw. exists (resolution_of mdl <$> refs). split.
  - rewrite (resolveModel_batch _ _ _ _ _ Hw). unfold nodeRefs. by rewrite Hrefs.
  - apply carries_resolution_of.
Qed.

(** An entry that came without [all_node_refs] (as in the first revision
    of the analysis) is resolved at the reference it carries itself. *)
Lemma resolveModel_without_refs api (missing : MissingModel) (mdl : Model) d (w : Workflow) :
  all_node_refs missing = None →
  graph d = Some w →
  resolve_batches (requests (resolveModel api missing (Some mdl) d)) =
    resolve_batches (requests d) ++ [(w, [resolution_of mdl (self_ref missing)])].
Proof.
  intros Hrefs Hw. rewrite (resolveModel_batch _ _ _ _ _ Hw).
  unfold nodeRefs. by rewrite Hrefs.
Qed.

(** The bulk pass collects at most one resolution per entry, for the
    reference the entry carries itself. *)
Lemma collect100Percent_length (ms : list MissingModel) :
  (length (@collect100Percent ms) ≤ length ms)%nat.
Proof.
  induction ms as [|m ms IH]; simpl; [done|].
  unfold collect100Percent in *. simpl. rewrite length_app.
  destruct (Js.find _ _) as [[c [mdl|] f]|]; simpl; lia.
Qed.
End DialogFacts.

(** ** Resolve batches *)

(** C4 (the bulk pass at a concrete analysis result): for an entry with a
    perfect candidate and three references, [autoResolve100Percent] sends a
    single batch that holds one resolution, for the reference the entry
    carries itself; the other two references of the entry are not in the
    batch, while [resolveModel] on the same entry sends all three. *)
Theorem autoResolve100Percent_one_per_entry :
  let api := Sample.server [Sample.perfect_entry] (Status 500) in
  let d := Sample.dialog Sample.perfect_entry in
  nodeRefs Sample.perfect_entry =
    [Sample.top_ref 4; Sample.top_ref 9; Sample.inner_ref 2] ∧
  resolve_batches (requests (autoResolve100Percent api d).2) =
    [(Sample.workflow, [resolution_of Sample.file (Sample.top_ref 4)])] ∧
  resolve_batches (requests (resolveModel api Sample.perfect_entry (Some Sample.file) d)) =
    [(Sample.workflow,
      resolution_of Sample.file <$>
        [Sample.top_ref 4; Sample.top_ref 9; Sample.inner_ref 2])].
Proof. split_and!; reflexivity. Qed.



(** The three references of the sample entry are patched by one decision. *)
Example sample_resolved :
  graph (resolveModel (Sample.server [] (Status 500)) Sample.perfect_entry
           (Some Sample.file) (Sample.dialog Sample.perfect_entry)) =
  Some
    {| GraphPatcher.nodes :=
         [ {| GraphPatcher.id := 4;
              GraphPatcher.widgets_values := [path Sample.file] |};
           {| GraphPatcher.id := 9;
              GraphPatcher.widgets_values := [path Sample.file] |} ];
       GraphPatcher.subgraphs :=
         [ {| GraphPatcher.definition_id := "sg-1";
              GraphPatcher.definition_nodes :=
                [ {| GraphPatcher.id := 2;
                     GraphPatcher.widgets_values := [path Sample.file] |} ] |} ] |}.
Proof. reflexivity. Qed.

(** A batch with a reference to a node that is gone changes nothing. *)
Example sample_rejected :
  let d := Sample.dialog_over Sample.stale_workflow Sample.perfect_entry in
  let d' := resolveModel (Sample.server [] (Status 500)) Sample.perfect_entry
              (Some Sample.file) d in
  graph d' = Some Sample.stale_workflow ∧
  notifications d' =
    [{| message := "Failed to resolve model: Reference not found: node 9, widget 0";
        type := error |}].
Proof. split; reflexivity. Qed.

(** ** Downloads *)

Section DownloadFacts.
Context {Workflow : Type}.
Implicit Types (api : Api Workflow) (d : Dialog Workflow).

(** Polling never touches the graph and never sends a resolve batch. *)
Lemma pollDownloadProgress_frame api downloadId d :
  let d' := pollDownloadProgress api downloadId d in
  graph d' = graph d ∧
  resolve_batches (requests d') = resolve_batches (requests d).
Proof.
  unfold pollDownloadProgress. cbv zeta.
  destruct (activeDownloads d !! downloadId); [|done].
  destruct (progress api downloadId); simpl; repeat case_decide; simpl;
    rewrite ?resolve_batches_app, ?app_nil_r; done.
Qed.

(** Neither does starting a download. *)
Lemma downloadModel_frame api missing d :
  let d' := downloadModel api missing d in
  graph d' = graph d ∧
  resolve_batches (requests d') = resolve_batches (requests d).
Proof.
  unfold downloadModel. cbv zeta.
  destruct (download_source missing) as [source|]; [|done].
  destruct (truthy (url source)) as [u|]; [|done].
  destruct (download api _ _ _) as [msg|code|data]; simpl;
    rewrite ?resolve_batches_app, ?app_nil_r; try done.
  destruct (started data); simpl; rewrite ?resolve_batches_app, ?app_nil_r; [|done].
  match goal with
  | |- context [pollDownloadProgress ?a ?b ?c] =>
      destruct (pollDownloadProgress_frame a b c) as [-> ->]
  end.
  simpl. by rewrite resolve_batches_app, app_nil_r.
Qed.

(** The three ways a poll of a tracked job can go. *)
Lemma poll_running api downloadId d info_ p :
  activeDownloads d !! downloadId = Some info_ →
  progress api downloadId = Json p →
  ¬ terminal (status p) →
  let d' := pollDownloadProgress api downloadId d in
  activeDownloads d' = activeDownloads d ∧
  ∃ ms, timers d' = timers d ++ [{| task := PollDownloadProgress downloadId; delay := ms |}].
Proof.
  intros Hinfo Hp Hrun. unfold pollDownloadProgress, terminal in *. cbv zeta.
  rewrite Hinfo, Hp. repeat case_decide; simpl; try (split; [done|by eexists]);
    destruct Hrun; auto.
Qed.

Lemma poll_terminal api downloadId d info_ p :
  activeDownloads d !! downloadId = Some info_ →
  progress api downloadId = Json p →
  terminal (status p) →
  let d' := pollDownloadProgress api downloadId d in
  activeDownloads d' = delete downloadId (activeDownloads d) ∧
  ∃ new, timers d' = timers d ++ new ∧ ¬ poll_scheduled downloadId new.
Proof.
  intros Hinfo Hp Hterm. unfold pollDownloadProgress, terminal in *. cbv zeta.
  rewrite Hinfo, Hp.
  assert (∀ t : Task, (∀ i, t ≠ PollDownloadProgress i) →
            ¬ poll_scheduled downloadId [{| task := t; delay := 500 |}]) as Hone.
  { intros t Ht (x & ->%list_elem_of_singleton & Hx). simpl in Hx. by eapply Ht. }
  assert (¬ poll_scheduled downloadId []) as Hnil
    by (by intros (x & ?%elem_of_nil & _)).
  destruct Hterm as [H|[H|H]]; rewrite H; simpl.
  - split; [done|]. eexists. split; [done|]. by apply Hone.
  - split; [done|]. exists []. by rewrite app_nil_r.
  - split; [done|]. exists []. by rewrite app_nil_r.
Qed.

Lemma poll_failed api downloadId d info_ :
  activeDownloads d !! downloadId = Some info_ →
  (∀ p, progress api downloadId ≠ Json p) →
  let d' := pollDownloadProgress api downloadId d in
  activeDownloads d' = delete downloadId (activeDownloads d) ∧
  timers d' = timers d.
Proof.
  intros Hinfo Hfail. unfold pollDownloadProgress. cbv zeta. rewrite Hinfo.
  destruct (progress api downloadId) as [msg|code|p] eqn:Hp; simpl; try done.
  by destruct (Hfail p).
Qed.

(** C7: a poll of a tracked job that observes a terminal status removes
    the job from the tracking table and schedules no further poll for it;
    a poll that observes any other status leaves the table as it is and
    schedules another poll; a poll whose request fails removes the job as
    well and schedules nothing.  So the poll evicts the job exactly when
    it has observed a terminal status or its request has failed. *)
Theorem poll_evicts_on_terminal_or_failure api (downloadId : string) d
    (info_ : DownloadInfo) :
  activeDownloads d !! downloadId = Some info_ →
  let d' := pollDownloadProgress api downloadId d in
  (∀ p, progress api downloadId = Json p → terminal (status p) →
     activeDownloads d' = delete downloadId (activeDownloads d) ∧
     ∃ new, timers d' = timers d ++ new ∧ ¬ poll_scheduled downloadId new) ∧
  (∀ p, progress api downloadId = Json p → ¬ terminal (status p) →
     activeDownloads d' = activeDownloads d ∧
     ∃ ms, timers d' =
             timers d ++ [{| task := PollDownloadProgress downloadId; delay := ms |}]) ∧
  ((∀ p, progress api downloadId ≠ Json p) →
     activeDownloads d' = delete downloadId (activeDownloads d) ∧
     timers d' = timers d) ∧
  (activeDownloads d' !! downloadId = None ↔
     (∃ p, progress api downloadId = Json p ∧ terminal (status p)) ∨
     (∀ p, progress api downloadId ≠ Json p)).
Proof.
  intros Hinfo d'. subst d'. split_and!.
  - intros p Hp Ht. by eapply poll_terminal.
  - intros p Hp Ht. by eapply poll_running.
  - intros Hfail. by eapply poll_failed.
  - destruct (progress api downloadId) as [msg|code|p] eqn:Hp.
    + destruct (poll_failed api downloadId d info_ Hinfo) as [-> _];
        [by rewrite Hp|].
      rewrite lookup_delete_eq. split; [|done]. intros _. by right.
    + destruct (poll_failed api downloadId d info_ Hinfo) as [-> _];
        [by rewrite Hp|].
      rewrite lookup_delete_eq. split; [|done]. intros _. by right.
    + destruct (decide (terminal (status p))) as [Ht|Ht].
      * destruct (poll_terminal api downloadId d info_ p Hinfo Hp Ht) as [-> _].
        rewrite lookup_delete_eq. split; [|done]. intros _. left. by exists p.
      * destruct (poll_running api downloadId d info_ p Hinfo Hp Ht) as [-> _].
        rewrite Hinfo. split; [done|].
        intros [(p' & [= <-] & Ht')|Hfail]; [done|]. by destruct (Hfail p).
Qed.
End DownloadFacts.

Section AfterDownload.
Context {Workflow : Type}.
Implicit Types (api : Api Workflow) (d : Dialog Workflow).


End AfterDownload.

(** C7 without the failure case does not hold: when the progress request
    of a tracked job comes back with status 500, the job is evicted although
    no terminal status was observed. *)
Lemma failed_poll_evicts :
  let api := Sample.server [] (Status 500) in
  let d := Sample.dialog Sample.perfect_entry in
  activeDownloads d !! "job-1"%string = Some {| info_missing := Sample.perfect_entry |} ∧
  activeDownloads (pollDownloadProgress api "job-1" d) !! "job-1"%string = None ∧
  ¬ ∃ p, progress api "job-1" = Json p ∧ terminal (status p).
Proof.
  split_and!; [reflexivity|reflexivity|]. by intros (p & ? & _).
Qed.

Lemma poll_evicts_on_terminal_or_failure_witness :
  let api := Sample.server [] (Json Sample.completed) in
  let d := Sample.dialog Sample.perfect_entry in
  activeDownloads d !! "job-1"%string = Some {| info_missing := Sample.perfect_entry |} ∧
  (activeDownloads (pollDownloadProgress api "job-1" d) !! "job-1"%string = None ↔
     (∃ p, progress api "job-1" = Json p ∧ terminal (status p)) ∨
     (∀ p, progress api "job-1" ≠ Json p)).
Proof.
  split; [reflexivity|].
  apply (poll_evicts_on_terminal_or_failure
           (Sample.server [] (Json Sample.completed)) "job-1"
           (Sample.dialog Sample.perfect_entry)
           {| info_missing := Sample.perfect_entry |} eq_refl).
Defined.



(** ** The statements at the sample data *)

Lemma display_order_witness :
  ∃ cards ls,
    shown (displayMissingModels 0 Sample.analysis) = MissingList 3 0 cards ls ∧
    card_missing <$> cards ≡ₚ Js.or_else (missing_models Sample.analysis) [] ∧
    ∀ i j a b, (i < j)%nat →
      (card_missing <$> cards) !! i = Some a → (card_missing <$> cards) !! j = Some b →
      (has_perfect b → has_perfect a) ∧
      ((has_perfect a ↔ has_perfect b) →
       ∀ ca cb, best_confidence a ca → best_confidence b cb → cb ≤ ca).
Proof.
  eexists _, _. split; [reflexivity|].
  eapply (display_order 0 Sample.analysis). reflexivity.
Defined.

Example sample_display :
  displayed (displayMissingModels 0 Sample.analysis) =
  [Sample.perfect_entry; Sample.fuzzy_entry; Sample.weak_entry].
Proof. reflexivity. Qed.

Lemma resolveModel_every_reference_witness :
  let api := Sample.server [] (Status 500) in
  let d := Sample.dialog Sample.perfect_entry in
  all_node_refs Sample.perfect_entry =
    Some [Sample.top_ref 4; Sample.top_ref 9; Sample.inner_ref 2] ∧
  graph d = Some Sample.workflow ∧
  ∃ batch,
    resolve_batches (requests (resolveModel api Sample.perfect_entry (Some Sample.file) d)) =
      resolve_batches (requests d) ++ [(Sample.workflow, batch)] ∧
    Forall2 (carries Sample.file) batch
      [Sample.top_ref 4; Sample.top_ref 9; Sample.inner_ref 2].
Proof.
  split_and!; [reflexivity|reflexivity|].
  apply (resolveModel_every_reference
           (Sample.server [] (Status 500)) Sample.perfect_entry _ Sample.file
           (Sample.dialog Sample.perfect_entry) Sample.workflow eq_refl eq_refl).
Defined.

Lemma sample_has_perfect :
  ∃ m, m ∈ allMatches Sample.perfect_entry ∧ confidence m = 100.
Proof. exists (Sample.candidate 100). split; [right; left|reflexivity]. Defined.

Lemma perfect_candidates_only_witness :
  (∃ m, m ∈ allMatches Sample.perfect_entry ∧ confidence m = 100) ∧
  offered (renderMissingModel Sample.perfect_entry) = [Sample.candidate 100] ∧
  (∀ m, m ∈ allMatches Sample.perfect_entry → 70 ≤ confidence m ≤ 99 →
     m ∉ offered (renderMissingModel Sample.perfect_entry)) ∧
  reported_others (renderMissingModel Sample.perfect_entry) = Some 2%nat.
Proof.
  split; [exact sample_has_perfect|].
  exact (perfect_candidates_only Sample.perfect_entry sample_has_perfect).
Defined.

Lemma candidates_at_least_70_witness :
  card_missing (renderMissingModel Sample.weak_entry) = Sample.weak_entry ∧
  (∀ m, m ∈ offered (renderMissingModel Sample.weak_entry) →
     m ∈ allMatches Sample.weak_entry ∧ 70 ≤ confidence m) ∧
  ((∀ m, m ∈ allMatches Sample.weak_entry → confidence m < 70) ↔
   marked_no_local_match (renderMissingModel Sample.weak_entry)).
Proof. exact (candidates_at_least_70 Sample.weak_entry). Defined.

Example sample_weak_card :
  card_local (renderMissingModel Sample.weak_entry) = NoMatchesAbove70.
Proof. reflexivity. Qed.

Lemma sample_fuzzy_range :
  ∀ m, m ∈ allMatches Sample.fuzzy_entry → 0 ≤ confidence m ≤ 100.
Proof.
  apply Forall_forall. repeat constructor; simpl; lia.
Defined.

Lemma sample_fuzzy_imperfect :
  ∀ m, m ∈ allMatches Sample.fuzzy_entry → confidence m ≠ 100.
Proof.
  apply Forall_forall. repeat constructor; simpl; lia.
Defined.

Lemma five_best_candidates_witness :
  ((∀ m, m ∈ allMatches Sample.fuzzy_entry → 0 ≤ confidence m ≤ 100) ∧
   (∀ m, m ∈ allMatches Sample.fuzzy_entry → confidence m ≠ 100)) ∧
  offered (renderMissingModel Sample.fuzzy_entry) =
    Sample.candidate <$> [99; 90; 88; 80; 75] ∧
  length (offered (renderMissingModel Sample.fuzzy_entry)) = 5%nat ∧
  StronglySorted (λ a b, confidence b ≤ confidence a)
    (offered (renderMissingModel Sample.fuzzy_entry)) ∧
  ∃ omitted,
    offered (renderMissingModel Sample.fuzzy_entry) ++ omitted ≡ₚ
      filter (λ m, 70 ≤ confidence m) (allMatches Sample.fuzzy_entry) ∧
    length omitted = 2%nat ∧
    ∀ a b, a ∈ offered (renderMissingModel Sample.fuzzy_entry) → b ∈ omitted →
           confidence b ≤ confidence a.
Proof.
  split; [split; [exact sample_fuzzy_range|exact sample_fuzzy_imperfect]|].
  exact (five_best_candidates Sample.fuzzy_entry sample_fuzzy_range sample_fuzzy_imperfect).
Defined.

Example formatBytes_0 : formatBytes 0 = "0 B"%string. Proof. reflexivity. Qed.
Example formatBytes_1 : formatBytes 1 = "1 B"%string. Proof. vm_compute. reflexivity. Qed.
Example formatBytes_1536 : formatBytes 1536 = "1.5 KB"%string. Proof. vm_compute. reflexivity. Qed.
Example formatBytes_1023 : formatBytes 1023 = "1023 B"%string. Proof. vm_compute. reflexivity. Qed.
Example formatBytes_big : formatBytes (1024^4) = "1 undefined"%string. Proof. vm_compute. reflexivity. Qed.
Example formatBytes_x : formatBytes 1048575 = "1024 KB"%string. Proof. vm_compute. reflexivity. Qed.
Example formatBytes_y : formatBytes 123456789 = "117.7 MB"%string. Proof. vm_compute. reflexivity. Qed.

(** * Further properties *)

(** ** Display names *)

Lemma length_append (a b : string) :
  String.length (a +:+ b) = (String.length a + String.length b)%nat.
Proof. induction a as [|c a IH]; simpl; [done|]. by rewrite IH. Qed.

Lemma length_str_take n s :
  String.length (str_take n s) = (n `min` String.length s)%nat.
Proof.
  revert s. induction n as [|n IH]; intros [|c s]; simpl; try done.
  by rewrite IH.
Qed.

Lemma length_str_drop n s :
  String.length (str_drop n s) = (String.length s - n)%nat.
Proof.
  revert s. induction n as [|n IH]; intros [|c s]; simpl; try done; lia.
Qed.

(** A slice between two positions inside the string. *)
Lemma length_slice_inside s a b :
  0 ≤ a ≤ b → b ≤ Z.of_nat (String.length s) →
  Z.of_nat (String.length (slice s a (Some b))) = b - a.
Proof.
  intros Ha Hb. unfold slice. rewrite length_str_take, length_str_drop.
  rewrite !decide_False by lia. lia.
Qed.

Lemma length_slice_from s a :
  0 ≤ a ≤ Z.of_nat (String.length s) →
  Z.of_nat (String.length (slice s a None)) = Z.of_nat (String.length s) - a.
Proof.
  intros Ha. unfold slice. rewrite length_str_take, length_str_drop.
  rewrite decide_False by lia. lia.
Qed.

(** The last [n] characters. *)
Lemma length_slice_tail s n :
  0 < n ≤ Z.of_nat (String.length s) →
  Z.of_nat (String.length (slice s (- n) None)) = n.
Proof.
  intros Hn. unfold slice. rewrite length_str_take, length_str_drop.
  rewrite decide_True by lia. lia.
Qed.

Lemma lastIndexOf_range c s :
  -1 ≤ lastIndexOf c s < Z.of_nat (String.length s).
Proof.
  induction s as [|x s IH]; simpl; [lia|].
  case_decide; [lia|]. destruct (Ascii.eqb x c); lia.
Qed.

(** What is shown of a name that does not fit has exactly the length
    allowed. *)
Lemma formatFilename_length (filename : string) (maxLength : Z) :
  3 ≤ maxLength →
  filename ≠ EmptyString →
  last_part filename = filename ∨ last_part filename = EmptyString →
  Z.of_nat (String.length (shown_text (formatFilename (Some filename) maxLength)))
    = Z.of_nat (String.length filename) `min` maxLength.
Proof.
  intros Hmax Hne Hlast. unfold formatFilename.
  assert (truthy (Some filename) = Some filename) as -> by (by destruct filename).
  assert (default filename (truthy (Some (last_part filename))) = filename) as ->.
  { destruct Hlast as [->| ->]; [by destruct filename|done]. }
  case_decide as Hfit; simpl; [lia|].
  pose proof (lastIndexOf_range "." filename) as Hdot.
  set (lastDot := lastIndexOf "." filename) in *.
  set (len := Z.of_nat (String.length filename)) in *.
  set (ext := if decide (0 < lastDot) then slice filename lastDot None else EmptyString).
  set (name := if decide (0 < lastDot) then slice filename 0 (Some lastDot) else filename).
  assert (Z.of_nat (String.length name) + Z.of_nat (String.length ext) = len) as Hsplit.
  { subst name ext. case_decide.
    - rewrite length_slice_inside, length_slice_from by lia. lia.
    - simpl. lia. }
  case_decide as Havail; simpl.
  - rewrite length_append, Nat2Z.inj_add, length_slice_inside by lia. simpl. lia.
  - set (avail := maxLength - Z.of_nat (String.length ext) - 3) in *.
    assert (avail = (avail + 1) / 2 + avail / 2) as Hhalves.
    { pose proof (Z.div_mod avail 2). pose proof (Z.div_mod (avail + 1) 2).
      pose proof (Z.mod_pos_bound avail 2). pose proof (Z.mod_pos_bound (avail + 1) 2).
      lia. }
    assert (4 ≤ avail / 2) by (apply Z.div_le_lower_bound; lia).
    assert (0 ≤ (avail + 1) / 2) by (apply Z.div_pos; lia).
    rewrite !length_append, !Nat2Z.inj_add.
    rewrite length_slice_inside, length_slice_tail by lia. simpl. lia.
Qed.

Lemma last_part_fixed s : last_part (last_part s) = last_part s.
Proof.
  induction s as [|c s IH]; [done|].
  change (last_part (String c s))
    with (if has_separator (String c s) then last_part s else String c s).
  destruct (has_separator (String c s)) eqn:Hsep; [done|].
  change (last_part (String c s))
    with (if has_separator (String c s) then last_part s else String c s).
  by rewrite Hsep.
Qed.

Lemma last_part_plain s : has_separator s = false → last_part s = s.
Proof. destruct s as [|c s]; [done|]. intros Hs. simpl in *. by rewrite Hs. Qed.

Lemma truthy_Some s : s ≠ EmptyString → truthy (Some s) = Some s.
Proof. by destruct s. Qed.

(** X1: for a non-empty path and a limit of at least 3, [formatFilename]
    shows the file name itself when it fits and otherwise a text of
    exactly [maxLength] characters; the full text is always the file name
    (what follows the last separator, or the whole path when nothing
    follows it). *)
Theorem formatFilename_fits (path : string) (maxLength : Z) :
  3 ≤ maxLength →
  path ≠ EmptyString →
  let filename := if decide (last_part path = EmptyString) then path else last_part path in
  let f := formatFilename (Some path) maxLength in
  full_text f = filename ∧
  (Z.of_nat (String.length filename) ≤ maxLength → shown_text f = filename) ∧
  Z.of_nat (String.length (shown_text f)) =
    Z.of_nat (String.length filename) `min` maxLength.
Proof.
  intros Hmax Hne filename f.
  assert (default path (truthy (Some (last_part path))) = filename) as Hname.
  { subst filename. case_decide as Hl; [by rewrite Hl|]. by rewrite truthy_Some. }
  assert (f = formatFilename (Some filename) maxLength) as Hf.
  { subst f. unfold formatFilename. rewrite truthy_Some by done. rewrite Hname.
    assert (filename ≠ EmptyString) as Hfn by (subst filename; by case_decide).
    rewrite truthy_Some by done.
    assert (default filename (truthy (Some (last_part filename))) = filename) as ->.
    { subst filename. case_decide as Hl.
      - by rewrite Hl.
      - rewrite last_part_fixed. by rewrite truthy_Some. }
    done. }
  assert (filename ≠ EmptyString) as Hfn by (subst filename; by case_decide).
  assert (last_part filename = filename ∨ last_part filename = EmptyString) as Hlast.
  { subst filename. case_decide as Hl; [by right|]. left. apply last_part_fixed. }
  split_and!.
  - subst f. unfold formatFilename. rewrite truthy_Some by done. rewrite Hname.
    by repeat case_decide.
  - intros Hfit. subst f. unfold formatFilename. rewrite truthy_Some by done.
    rewrite Hname. by rewrite decide_True.
  - rewrite Hf. by apply formatFilename_length.
Qed.

(** X2: for a non-empty path and a limit of at least 3, what [formatPath]
    shows is never longer than [maxLength], and it is the path itself when
    the path fits. *)
Theorem formatPath_fits (path : string) (maxLength : Z) :
  3 ≤ maxLength →
  path ≠ EmptyString →
  let f := formatPath (Some path) maxLength in
  Z.of_nat (String.length (shown_text f)) ≤ maxLength ∧
  (Z.of_nat (String.length path) ≤ maxLength → f = {| shown_text := path; full_text := path |}).
Proof.
  intros Hmax Hne f. subst f. unfold formatPath. rewrite truthy_Some by done.
  case_decide as Hfit; [done|]. split; [|lia].
  destruct (has_separator path) eqn:Hsep; simpl.
  - case_decide; simpl; [done|].
    rewrite length_append, Nat2Z.inj_add, length_slice_inside by lia. simpl. lia.
  - rewrite formatFilename_length; [lia|done..|].
    left. by apply last_part_plain.
Qed.

Lemma formatFilename_fits_witness :
  (3 ≤ 45 ∧ SampleNames.long_path ≠ EmptyString) ∧
  let f := formatFilename (Some SampleNames.long_path) 45 in
  full_text f = "very_long_model_name_with_many_parts_v1.2.3_fp16_pruned.safetensors"%string ∧
  shown_text f = "very_long_model...2.3_fp16_pruned.safetensors"%string.
Proof.
  split; [split; [lia|done]|].
  destruct (formatFilename_fits SampleNames.long_path 45) as (Hfull & _ & _);
    [lia|done|].
  split; [exact Hfull|reflexivity].
Defined.

Lemma formatPath_fits_witness :
  (3 ≤ 45 ∧ SampleNames.long_path ≠ EmptyString) ∧
  Z.of_nat (String.length (shown_text (formatPath (Some SampleNames.long_path) 45))) ≤ 45.
Proof.
  split; [split; [lia|done]|].
  apply (formatPath_fits SampleNames.long_path 45); [lia|done].
Defined.

Example sample_formatPath :
  shown_text (formatPath (Some SampleNames.long_path) 60) =
    "checkpoints\...very_long_mod..._fp16_pruned.safetensors"%string.
Proof. reflexivity. Qed.

(** ** Badges *)

Lemma imap_lookup_inv {A B} (f : nat → A → B) (l : list A) i y :
  imap f l !! i = Some y → ∃ x, l !! i = Some x ∧ y = f i x.
Proof. rewrite list_lookup_imap. intros (x & ? & ->)%fmap_Some. by exists x. Qed.

Lemma card_rows_eq missing :
  card_rows (renderMissingModel missing) =
  if decide (0 < length (filteredMatches missing))%nat
  then imap (renderRow missing) (sortedMatches missing) else [].
Proof.
  unfold card_rows, renderMissingModel, renderLocal; simpl.
  repeat case_decide; done.
Qed.

(** X3: no row of a card carries the low badge: the badge of a row is
    high from 95 on and medium otherwise.  The row that is marked as the
    best match is the first row, and it is marked exactly when its badge is
    high. *)
Theorem row_badges (missing : MissingModel) (i : nat) (r : MatchRow) :
  card_rows (renderMissingModel missing) !! i = Some r →
  (badge_class (row_badge r) = "ml-badge-high"%string ∨
   badge_class (row_badge r) = "ml-badge-medium"%string) ∧
  (badge_class (row_badge r) = "ml-badge-high"%string ↔ 95 ≤ confidence (row_match r)) ∧
  (row_best r = true ↔
   i = 0%nat ∧ badge_class (row_badge r) = "ml-badge-high"%string).
Proof.
  rewrite card_rows_eq. case_decide; [|by rewrite lookup_nil].
  intros (m & Hm & ->)%imap_lookup_inv.
  apply list_elem_of_lookup_2, sortedMatches_elem in Hm as [_ H70].
  unfold row_badge, getConfidenceBadge; simpl.
  rewrite bool_decide_eq_true.
  repeat case_decide; split_and!; try (by auto); try lia;
    split; try done; try (by intros [? ?]); try (intros; lia); intros [? ?]; lia.
Qed.

Lemma row_badges_witness :
  card_rows (renderMissingModel Sample.fuzzy_entry) !! 0%nat =
    Some (renderRow Sample.fuzzy_entry 0 (Sample.candidate 99)) ∧
  row_best (renderRow Sample.fuzzy_entry 0 (Sample.candidate 99)) = true ∧
  badge_class (row_badge (renderRow Sample.fuzzy_entry 0 (Sample.candidate 99))) =
    "ml-badge-high"%string.
Proof.
  split; [reflexivity|].
  destruct (row_badges Sample.fuzzy_entry 0
              (renderRow Sample.fuzzy_entry 0 (Sample.candidate 99)) eq_refl)
    as (_ & _ & Hbest).
  split; [reflexivity|]. apply Hbest. reflexivity.
Defined.

(** ** The auto-open preference *)

(** X4: the auto-open preference reads back as it was written, is on when
    nothing was stored, and writing it leaves every other key of the
    storage alone. *)
Theorem autoOpen_round_trip (enabled : bool) (localStorage : gmap string string) :
  isAutoOpenEnabled (setAutoOpenEnabled enabled localStorage) = enabled ∧
  isAutoOpenEnabled (delete autoOpenKey localStorage) = true ∧
  ∀ key, key ≠ autoOpenKey →
    setAutoOpenEnabled enabled localStorage !! key = localStorage !! key.
Proof.
  unfold isAutoOpenEnabled, setAutoOpenEnabled. split_and!.
  - rewrite lookup_insert_eq. by destruct enabled.
  - by rewrite lookup_delete_eq.
  - intros key Hkey. by rewrite lookup_insert_ne.
Qed.

(** ** Order of the cards, continued *)

(** The stable sort keeps the order of elements that the comparator does
    not tell apart. *)
Lemma sort_stable {A} (cmp : A → A → Z) (P : A → Prop) `{!∀ x, Decision (P x)}
    (l : list A) :
  (∀ a b, P a → P b → cmp a b ≤ 0) →
  filter P (Js.sort cmp l) = filter P l.
Proof.
  intros Hsame.
  assert (∀ x l', filter P (Js.insert cmp x l') = filter P (x :: l')) as Hins.
  { intros x l'. induction l' as [|y l' IH]; simpl; [done|].
    case_decide as Hxy; [done|].
    rewrite (filter_cons _ y), IH, !filter_cons.
    destruct (decide (P y)) as [Hy|Hy], (decide (P x)) as [Hx|Hx]; try done.
    destruct Hxy. by apply Hsame. }
  induction l as [|x l IH]; [done|].
  change (Js.sort cmp (x :: l)) with (Js.insert cmp x (Js.sort cmp l)).
  by rewrite Hins, !filter_cons, IH.
Qed.

Lemma shown_cards activeCount data total ac cards ls :
  shown (displayMissingModels activeCount data) = MissingList total ac cards ls →
  cards = renderMissingModel <$> sortedMissingModels (Js.or_else (missing_models data) []) ∧
  ls = sortedMissingModels (Js.or_else (missing_models data) []) ≫= attachListeners cards.
Proof.
  unfold displayMissingModels; simpl. repeat case_decide; try done.
  by intros [= _ _ <- <-].
Qed.

(** X5: entries of the same rank (same answer to "has a perfect
    candidate", same best confidence) are displayed in the order in which
    the analysis listed them. *)
Theorem display_order_stable (activeCount : nat) (data : AnalyzeData)
    (total : Z) (ac : nat) (cards : list Card) (ls : list ResolveListener)
    (k : bool * Z) :
  shown (displayMissingModels activeCount data) = MissingList total ac cards ls →
  filter (λ e, rank e = k) (card_missing <$> cards) =
  filter (λ e, rank e = k) (Js.or_else (missing_models data) []).
Proof.
  intros [-> _]%shown_cards.
  rewrite <-list_fmap_compose, list_fmap_id.
  apply sort_stable. intros a b Ha Hb. unfold compareMissing.
  unfold rank in *. destruct k as [h c]. injection Ha as Ha1 Ha2.
  injection Hb as Hb1 Hb2. rewrite Ha1, Hb1, Ha2, Hb2.
  destruct h; simpl; lia.
Qed.

Lemma display_order_stable_witness :
  ∃ cards ls,
    shown (displayMissingModels 0 Sample.analysis) = MissingList 3 0 cards ls ∧
    filter (λ e, rank e = (false, 99)) (card_missing <$> cards) =
    filter (λ e, rank e = (false, 99)) (Js.or_else (missing_models Sample.analysis) []).
Proof.
  eexists _, _. split; [reflexivity|].
  eapply (display_order_stable 0 Sample.analysis). reflexivity.
Defined.

(** X6: displaying a list that is already in display order leaves it as it
    is: sorting what [displayMissingModels] has sorted changes nothing. *)
Theorem display_order_idempotent (missingModels : list MissingModel) :
  sortedMissingModels (sortedMissingModels missingModels) =
  sortedMissingModels missingModels.
Proof. apply sort_sorted_id, sortedMissingModels_sorted. Qed.







(** Three cards for three nodes: every Link button has an id of its own
    and carries its listener. *)
Example sample_listeners :
  ∃ cards ls,
    shown (displayMissingModels 0 SampleListeners.analysis) = MissingList 3 0 cards ls ∧
    NoDup (rendered_buttons cards) ∧
    on_element <$> ls = [0; 1; 2; 3; 4; 5]%nat.
Proof.
  eexists _, _. split_and!; [reflexivity|compute_done|reflexivity].
Qed.

(** Two cards for node 4, widget 0: the first Link button of the page gets
    the listeners of both cards, and the first Link button of the second
    card (the second of the page) gets none. *)
Example sample_shared_id :
  ∃ cards ls,
    shown (displayMissingModels 0 Sample.analysis) = MissingList 3 0 cards ls ∧
    card_missing <$> cards =
      [Sample.perfect_entry; Sample.fuzzy_entry; Sample.weak_entry] ∧
    rendered_buttons cards =
      [(4, 0, 0%nat); (4, 0, 0%nat); (4, 0, 1%nat); (4, 0, 2%nat);
       (4, 0, 3%nat); (4, 0, 4%nat)] ∧
    (λ l, (on_element l, on_missing l)) <$> ls =
      [(0%nat, Sample.perfect_entry); (0%nat, Sample.fuzzy_entry);
       (2%nat, Sample.fuzzy_entry); (3%nat, Sample.fuzzy_entry);
       (4%nat, Sample.fuzzy_entry); (5%nat, Sample.fuzzy_entry)].
Proof. eexists _, _. split_and!; reflexivity. Qed.

(** ** Downloads, continued *)

Section DownloadMore.
Context {Workflow : Type}.
Implicit Types (api : Api Workflow) (d : Dialog Workflow).

Lemma download_requests_app (r1 r2 : list (Request Workflow)) :
  download_requests (r1 ++ r2) = download_requests r1 ++ download_requests r2.
Proof. apply omap_app. Qed.

(** A poll sends at most its progress request; it removes at most its own
    job and schedules at most one call. *)
Lemma poll_effects api downloadId d :
  let d' := pollDownloadProgress api downloadId d in
  download_requests (requests d') = download_requests (requests d) ∧
  (activeDownloads d' = activeDownloads d ∨
   activeDownloads d' = delete downloadId (activeDownloads d)) ∧
  ∃ new, timers d' = timers d ++ new.
Proof.
  unfold pollDownloadProgress. cbv zeta.
  destruct (activeDownloads d !! downloadId).
  2: { split_and!; [done|by left|]. exists []. by rewrite app_nil_r. }
  destruct (progress api downloadId); simpl; repeat case_decide; simpl;
    rewrite ?download_requests_app, ?app_nil_r;
    (split_and!; [done|auto|]);
    first [by eexists | exists []; by rewrite app_nil_r].
Qed.

(** The two ways [downloadModel] can begin. *)
Lemma downloadModel_begin api missing d :
  (download_source missing ≫= (λ source, truthy (url source)) = None ∧
   downloadModel api missing d = showNotification "No download URL available" error d) ∨
  (∃ source u f c later,
     download_source missing = Some source ∧ truthy (url source) = Some u ∧
     f = default (basename_or "model.safetensors" (original_path missing))
           (truthy (ds_filename source)) ∧
     requests (downloadModel api missing d) = requests d ++ PostDownload u f c :: later ∧
     download_requests later = []).
Proof.
  unfold downloadModel.
  destruct (download_source missing) as [source|]; simpl; [|by left].
  destruct (truthy (url source)) as [u|] eqn:Hu; simpl; [|by left].
  right. eexists source, u, _, _. 
  destruct (download api u _ _) as [msg|code|data] eqn:Hd; simpl.
  1,2: exists []; split_and!; done.
  destruct (started data); simpl; [|exists []; split_and!; done].
  match goal with
  | |- context [pollDownloadProgress ?a ?b ?c] =>
      pose proof (poll_effects a b c) as (Hreq & _ & _);
      assert (∃ more, requests (pollDownloadProgress a b c) = requests c ++ more ∧
                      download_requests more = []) as (more & -> & Hmore)
  end.
  { unfold pollDownloadProgress. cbv zeta.
    destruct (_ !! _); [|by exists []; rewrite app_nil_r].
    destruct (progress api _); simpl; repeat case_decide; simpl;
      by eexists. }
  simpl. exists more. rewrite <-app_assoc. split_and!; done.
Qed.

Lemma truthy_nonempty o s : truthy o = Some s → s ≠ EmptyString.
Proof. destruct o as [[|c x]|]; simpl; [done| |done]. by intros [= <-]. Qed.

Lemma default_truthy_nonempty dflt o :
  dflt ≠ EmptyString → default dflt (truthy o) ≠ EmptyString.
Proof.
  intros Hd. destruct (truthy o) as [s|] eqn:Ho; simpl; [|done].
  by eapply truthy_nonempty.
Qed.


(** X9: every download request [downloadModel] posts has a non-empty URL,
    which is the URL of the entry's download source, and a non-empty file
    name; it posts at most one. *)
Theorem downloadModel_request_wellformed api (missing : MissingModel) d :
  download_requests (requests (downloadModel api missing d)) =
    download_requests (requests d) ∨
  ∃ source u f c,
    download_requests (requests (downloadModel api missing d)) =
      download_requests (requests d) ++ [(u, f, c)] ∧
    download_source missing = Some source ∧ url source = Some u ∧
    u ≠ EmptyString ∧ f ≠ EmptyString.
Proof.
  destruct (downloadModel_begin api missing d)
    as [[Hnone ->]|(source & u & f & c & later & Hs & Hu & Hf & Hreq & Hlater)].
  - by left.
  - right. exists source, u, f, c. split_and!.
    + rewrite Hreq, download_requests_app. simpl. by rewrite Hlater.
    + done.
    + destruct (url source) as [[|x s]|]; simpl in Hu; congruence.
    + by eapply truthy_nonempty.
    + subst f. apply default_truthy_nonempty. unfold basename_or.
      by apply default_truthy_nonempty.
Qed.

(** X10: the tracking table only ever gains, through [downloadModel], the
    job the server has started for this very request, bound to the entry
    the download was asked for; every other job stays as it was or is
    not in the table. *)
Theorem downloadModel_tracks_started_job api (missing : MissingModel) d
    (downloadId : string) (tracked : DownloadInfo) :
  activeDownloads (downloadModel api missing d) !! downloadId = Some tracked →
  activeDownloads d !! downloadId = Some tracked ∨
  (info_missing tracked = missing ∧
   ∃ u f c data,
     (u, f, c) ∈ download_requests (requests (downloadModel api missing d)) ∧
     download api u f c = Json data ∧ started data = true ∧
     download_id data = downloadId).
Proof.
  unfold downloadModel.
  destruct (download_source missing) as [source|]; simpl; [|by left].
  destruct (truthy (url source)) as [u|] eqn:Hu; simpl; [|by left].
  destruct (download api u _ _) as [msg|code|data] eqn:Hd; simpl; try (by left).
  destruct (started data) eqn:Hstarted; simpl; [|by left].
  match goal with
  | |- context [pollDownloadProgress ?a ?b ?c] =>
      destruct (poll_effects a b c) as (Hreq & Htable & _); rewrite Hreq
  end.
  simpl. intros Hlook.
  assert (<[download_id data:={| info_missing := missing |}]> (activeDownloads d)
            !! downloadId = Some tracked) as Hins.
  { destruct Htable as [Ht|Ht]; rewrite Ht in Hlook; [done|].
    apply lookup_delete_Some in Hlook as [_ ?]. done. }
  destruct (decide (download_id data = downloadId)) as [<-|Hne].
  - rewrite lookup_insert_eq in Hins. injection Hins as <-. right. split; [done|].
    eexists u, _, _, data. split_and!; try done.
    rewrite download_requests_app. simpl. apply elem_of_app. right. by left.
  - rewrite lookup_insert_ne in Hins by done. by left.
Qed.

(** X11: a poll for one job never changes what the table holds for
    another job. *)
Theorem poll_leaves_other_jobs api (downloadId other : string) d :
  other ≠ downloadId →
  activeDownloads (pollDownloadProgress api downloadId d) !! other =
  activeDownloads d !! other.
Proof.
  intros Hne. destruct (poll_effects api downloadId d) as (_ & [->| ->] & _).
  - done.
  - by rewrite lookup_delete_ne.
Qed.
End DownloadMore.

Lemma downloadModel_tracks_started_job_witness :
  let api := Sample.server [] (Json SampleDownloads.downloading) in
  let d := Sample.dialog Sample.perfect_entry in
  let tracked := {| info_missing := SampleDownloads.remote_entry |} in
  activeDownloads (downloadModel api SampleDownloads.remote_entry d) !! "job-1"%string
    = Some tracked ∧
  (activeDownloads d !! "job-1"%string = Some tracked ∨
   (info_missing tracked = SampleDownloads.remote_entry ∧
    ∃ u f c data,
      (u, f, c) ∈ download_requests
                    (requests (downloadModel api SampleDownloads.remote_entry d)) ∧
      download api u f c = Json data ∧ started data = true ∧
      download_id data = "job-1"%string)).
Proof.
  split; [reflexivity|].
  apply (downloadModel_tracks_started_job
           (Sample.server [] (Json SampleDownloads.downloading))
           SampleDownloads.remote_entry (Sample.dialog Sample.perfect_entry)).
  reflexivity.
Defined.

Lemma poll_leaves_other_jobs_witness :
  let api := Sample.server [] (Json Sample.completed) in
  "job-2"%string ≠ "job-1"%string ∧
  activeDownloads (pollDownloadProgress api "job-1" SampleDownloads.busy) !! "job-2"%string =
    activeDownloads SampleDownloads.busy !! "job-2"%string.
Proof.
  split; [done|].
  by apply (poll_leaves_other_jobs (Sample.server [] (Json Sample.completed))).
Defined.

Example sample_download_request :
  download_requests
    (requests (downloadModel (Sample.server [] (Json SampleDownloads.downloading))
                 SampleDownloads.remote_entry (Sample.dialog Sample.perfect_entry))) =
  [("https://huggingface.co/org/repo/resolve/main/model_v1.safetensors",
    "model_v1.safetensors", "checkpoints")]%string.
Proof. reflexivity. Qed.


(** ** Tracked downloads stay polled *)

Section Polled.
Context {Workflow : Type}.
Implicit Types (api : Api Workflow) (d : Dialog Workflow).

Lemma poll_scheduled_app downloadId (ts new : list Timer) :
  poll_scheduled downloadId ts → poll_scheduled downloadId (ts ++ new).
Proof. intros (t & Ht & Htask). exists t. split; [|done]. apply elem_of_app. by left. Qed.

Lemma poll_scheduled_without downloadId (before after : list Timer) t :
  task t ≠ PollDownloadProgress downloadId →
  poll_scheduled downloadId (before ++ t :: after) →
  poll_scheduled downloadId (before ++ after).
Proof.
  intros Ht (t' & Hin & Htask). exists t'. split; [|done].
  apply elem_of_app in Hin as [Hin|Hin]; apply elem_of_app; [by left|].
  apply elem_of_cons in Hin as [->|Hin]; [done|by right].
Qed.

(** Table and timers are untouched by everything that is not a download
    or a poll. *)
Lemma resolveModel_frame api missing mdl d :
  activeDownloads (resolveModel api missing mdl d) = activeDownloads d ∧
  timers (resolveModel api missing mdl d) = timers d.
Proof.
  unfold resolveModel, getCurrentWorkflow.
  destruct mdl as [mdl|]; [|done]. destruct (graph d) as [w|] eqn:Hg; [|done].
  destruct (resolve api w _) as [msg|code|[w'|e]]; simpl; try done.
  match goal with
  | |- context [loadWorkflowData ?a ?b ?c] =>
      destruct (loadWorkflowData_frame a b c) as (_ & -> & _ & -> & _)
  end.
  unfold updateWorkflowInComfyUI. simpl. by rewrite Hg.
Qed.

Lemma autoResolve100Percent_frame api d :
  activeDownloads (autoResolve100Percent api d).2 = activeDownloads d ∧
  timers (autoResolve100Percent api d).2 = timers d.
Proof.
  unfold autoResolve100Percent, getCurrentWorkflow.
  destruct (graph d) as [w|] eqn:Hg; [|done].
  destruct (analyze api w) as [msg|code|data]; simpl; try done.
  case_decide; simpl; [done|].
  destruct (resolve api w _) as [msg|code|[w'|e]]; simpl; try done.
  match goal with
  | |- context [loadWorkflowData ?a ?b ?c] =>
      destruct (loadWorkflowData_frame a b c) as (_ & -> & _ & -> & _)
  end.
  unfold updateWorkflowInComfyUI. simpl. by rewrite Hg.
Qed.

Lemma autoResolveAfterDownload_frame api missing downloaded d :
  activeDownloads (autoResolveAfterDownload api missing downloaded d) = activeDownloads d ∧
  timers (autoResolveAfterDownload api missing downloaded d) = timers d.
Proof.
  assert (∀ o d0, activeDownloads d0 = activeDownloads d → timers d0 = timers d →
            activeDownloads (loadWorkflowData api o d0) = activeDownloads d ∧
            timers (loadWorkflowData api o d0) = timers d) as Hload.
  { intros o d0 Ht Hs.
    destruct (loadWorkflowData_frame api o d0) as (_ & -> & _ & -> & _). done. }
  unfold autoResolveAfterDownload, getCurrentWorkflow.
  destruct (graph d) as [w|] eqn:Hg; [|by apply Hload].
  destruct (analyze api w) as [msg|code|data]; try (by apply Hload).
  destruct (Js.find _ _) as [target|]; [|by apply Hload].
  destruct (Js.find _ _) as [[c [mdl|] f]|]; try (by apply Hload).
  destruct (resolve api w _) as [msg|code|[w'|e]]; try (by apply Hload).
  apply Hload; unfold updateWorkflowInComfyUI; simpl; by rewrite Hg.
Qed.

Lemma polled_frame d d' :
  activeDownloads d' = activeDownloads d → timers d' = timers d →
  polled d → polled d'.
Proof. intros Ht Hs Hd id. rewrite Ht, Hs. apply Hd. Qed.

(** A poll restores the property for its own job. *)
Lemma polled_after_poll api downloadId d :
  (∀ other, other ≠ downloadId → is_Some (activeDownloads d !! other) →
            poll_scheduled other (timers d)) →
  polled (pollDownloadProgress api downloadId d).
Proof.
  intros Hothers.
  destruct (activeDownloads d !! downloadId) as [tracked|] eqn:Hinfo.
  2: { unfold pollDownloadProgress. rewrite Hinfo. intros id Hid.
       apply Hothers; [|done]. intros ->. rewrite Hinfo in Hid. by destruct Hid. }
  assert (∀ new, activeDownloads (pollDownloadProgress api downloadId d)
                   = delete downloadId (activeDownloads d) →
                 timers (pollDownloadProgress api downloadId d) = timers d ++ new →
                 polled (pollDownloadProgress api downloadId d)) as Hevicted.
  { intros new Ht Hs id. rewrite Ht, Hs. intros [Hne Hid]%lookup_delete_is_Some.
    apply poll_scheduled_app. by apply Hothers. }
  destruct (progress api downloadId) as [msg|code|p] eqn:Hp.
  - destruct (poll_failed api downloadId d tracked Hinfo) as [Ht Hs];
      [by rewrite Hp|].
    apply (Hevicted []); [done|by rewrite app_nil_r].
  - destruct (poll_failed api downloadId d tracked Hinfo) as [Ht Hs];
      [by rewrite Hp|].
    apply (Hevicted []); [done|by rewrite app_nil_r].
  - destruct (decide (terminal (status p))) as [Hterm|Hrun].
    + destruct (poll_terminal api downloadId d tracked p Hinfo Hp Hterm)
        as (Ht & new & Hs & _).
      by apply (Hevicted new).
    + destruct (poll_running api downloadId d tracked p Hinfo Hp Hrun)
        as (Ht & ms & Hs).
      intros id. rewrite Ht, Hs. intros Hid.
      destruct (decide (id = downloadId)) as [->|Hne].
      * eexists. split; [apply elem_of_app; right; by left|done].
      * apply poll_scheduled_app. by apply Hothers.
Qed.

Lemma polled_step api d d' : polled d → DialogStep api d d' → polled d'.
Proof.
  intros Hd [before t after Hts|missing|missing u f c|missing mdl| |w].
  - destruct (task t) as [downloadId|missing downloaded] eqn:Htask; simpl.
    + apply polled_after_poll. simpl. intros other Hne Hother.
      apply (poll_scheduled_without _ _ _ t); [rewrite Htask; congruence|].
      rewrite <-Hts. by apply Hd.
    + destruct (autoResolveAfterDownload_frame api missing downloaded
                  (set_timers (before ++ after) d)) as [Ht Hs].
      intros id. rewrite Ht, Hs. simpl. intros Hid.
      apply (poll_scheduled_without _ _ _ t); [by rewrite Htask|].
      rewrite <-Hts. by apply Hd.
  - unfold downloadModel.
    destruct (download_source missing) as [source|]; simpl; [|done].
    destruct (truthy (url source)) as [u|]; simpl; [|done].
    destruct (download api u _ _) as [msg|code|data]; simpl; try done.
    destruct (started data); simpl; [|done].
    apply polled_after_poll. simpl. intros other Hne.
    rewrite lookup_insert_ne by done. apply Hd.
  - unfold downloadFromSearch.
    destruct (download api u f c) as [msg|code|data]; simpl; try done.
    destruct (started data); simpl; [|done].
    apply polled_after_poll. simpl. intros other Hne.
    rewrite lookup_insert_ne by done. apply Hd.
  - destruct (resolveModel_frame api missing mdl d) as [Ht Hs].
    by apply (polled_frame d).
  - destruct (autoResolve100Percent_frame api d) as [Ht Hs].
    by apply (polled_frame d).
  - destruct (loadWorkflowData_frame api w d) as (_ & Ht & _ & Hs & _).
    by apply (polled_frame d).
Qed.

(** X12: no tracked download is ever left without a poll.  In every
    dialog that comes about from one with an empty tracking table, by
    timers firing, downloads being started, entries being resolved, the
    bulk pass and the dialog being shown, and whatever the server
    answers, each job in [activeDownloads] has a [pollDownloadProgress]
    call for it waiting among the timers. *)
Theorem tracked_jobs_stay_polled d (downloadId : string) :
  Reachable d →
  is_Some (activeDownloads d !! downloadId) →
  poll_scheduled downloadId (timers d).
Proof.
  intros Hreach. revert downloadId. change (polled d).
  induction Hreach as [d Hempty|api d d' _ IH Hstep].
  - intros id. rewrite Hempty, lookup_empty. by intros [? ?].
  - by eapply polled_step.
Qed.
End Polled.

Lemma tracked_jobs_stay_polled_witness :
  let d := downloadModel (Sample.server [] (Json SampleDownloads.downloading))
             SampleDownloads.remote_entry SampleDownloads.idle in
  (Reachable d ∧ is_Some (activeDownloads d !! "job-1"%string)) ∧
  poll_scheduled "job-1" (timers d).
Proof.
  assert (Reachable
            (downloadModel (Sample.server [] (Json SampleDownloads.downloading))
               SampleDownloads.remote_entry SampleDownloads.idle)) as Hreach.
  { apply (reachable_step (Sample.server [] (Json SampleDownloads.downloading))
             SampleDownloads.idle);
      [apply reachable_new; reflexivity|apply step_download]. }
  assert (is_Some
            (activeDownloads
               (downloadModel (Sample.server [] (Json SampleDownloads.downloading))
                  SampleDownloads.remote_entry SampleDownloads.idle) !! "job-1"%string))
    as Htracked by (eexists; reflexivity).
  split; [by split|]. exact (tracked_jobs_stay_polled _ _ Hreach Htracked).
Defined.

(** ** The bulk pass *)

Section Bulk.
Context {Workflow : Type}.
Implicit Types (api : Api Workflow) (d : Dialog Workflow).

Lemma collect100Percent_sound (missingModels : list MissingModel) (r : Resolution) :
  r ∈ collect100Percent missingModels →
  ∃ missing m,
    missing ∈ missingModels ∧ m ∈ allMatches missing ∧ confidence m = 100 ∧
    model m = Some (resolved_model r) ∧
    r = resolution_of (resolved_model r) (self_ref missing).
Proof.
  unfold collect100Percent.
  intros (missing & Hr & Hin)%list_elem_of_bind.
  destruct (Js.find _ _) as [m|] eqn:Hfind; [|by apply elem_of_nil in Hr].
  apply find_Some in Hfind as [Hm Hc]. apply bool_decide_eq_true in Hc.
  destruct (model m) as [mdl|] eqn:Hmdl; [|by apply elem_of_nil in Hr].
  apply list_elem_of_singleton in Hr as ->. by exists missing, m.
Qed.

(** X13: the bulk pass never links anything but a perfect candidate and
    never sends an empty batch.  It sends at most one batch; the batch
    is not empty, and each of its resolutions patches the reference of
    an entry of the fresh analysis with the model of a candidate of that
    entry whose confidence is exactly 100. *)
Theorem bulk_pass_links_perfect_candidates_only api d :
  resolve_batches (requests (autoResolve100Percent api d).2) =
    resolve_batches (requests d) ∨
  ∃ w data batch,
    graph d = Some w ∧ analyze api w = Json data ∧
    resolve_batches (requests (autoResolve100Percent api d).2) =
      resolve_batches (requests d) ++ [(w, batch)] ∧
    batch ≠ [] ∧
    ∀ r, r ∈ batch →
      ∃ missing m,
        missing ∈ Js.or_else (missing_models data) [] ∧
        m ∈ allMatches missing ∧ confidence m = 100 ∧
        model m = Some (resolved_model r) ∧
        r = resolution_of (resolved_model r) (self_ref missing).
Proof.
  unfold autoResolve100Percent, getCurrentWorkflow.
  destruct (graph d) as [w|] eqn:Hg; [|by left].
  destruct (analyze api w) as [msg|code|data] eqn:Han; simpl;
    rewrite ?resolve_batches_app, ?app_nil_r; try (by left).
  case_decide as Hempty; simpl; rewrite ?resolve_batches_app, ?app_nil_r;
    [by left|].
  right. exists w, data, (collect100Percent (Js.or_else (missing_models data) [])).
  split_and!; try done.
  - destruct (resolve api w _) as [msg|code|[w'|e]]; simpl;
      rewrite ?resolve_batches_app; simpl; rewrite ?app_nil_r; try done.
    match goal with
    | |- context [loadWorkflowData ?a ?b ?c] =>
        destruct (loadWorkflowData_frame a b c) as (_ & _ & _ & _ & -> & _)
    end.
    unfold updateWorkflowInComfyUI. simpl. rewrite Hg. simpl.
    by rewrite !resolve_batches_app, app_nil_r.
  - intros Hnil. by rewrite Hnil in Hempty.
  - apply collect100Percent_sound.
Qed.

(** The workflow the bulk pass returns is the one it has put into the
    graph and had analysed last. *)
Lemma autoResolve100Percent_returns api d w' :
  (autoResolve100Percent api d).1 = Some w' →
  graph (autoResolve100Percent api d).2 = Some w' ∧
  ∃ earlier, analyzed (requests (autoResolve100Percent api d).2) = earlier ++ [w'].
Proof.
  unfold autoResolve100Percent, getCurrentWorkflow.
  destruct (graph d) as [w|] eqn:Hg; [|done].
  destruct (analyze api w) as [msg|code|data]; simpl; try done.
  case_decide; simpl; [done|].
  destruct (resolve api w _) as [msg|code|[w''|e]]; simpl; try done.
  intros [= ->]. unfold loadWorkflowData. simpl.
  destruct (analyze api w'); simpl; unfold updateWorkflowInComfyUI; simpl;
    rewrite Hg; simpl; (split; [done|]); rewrite !analyzed_app; simpl;
    by eexists.
Qed.

Lemma autoResolve100Percent_returns_nothing api d :
  (autoResolve100Percent api d).1 = None →
  graph (autoResolve100Percent api d).2 = graph d.
Proof.
  unfold autoResolve100Percent, getCurrentWorkflow.
  destruct (graph d) as [w|] eqn:Hg; [|simpl; by rewrite Hg].
  destruct (analyze api w) as [msg|code|data]; simpl; try (by rewrite Hg).
  case_decide; simpl; [by rewrite Hg|].
  destruct (resolve api w _) as [msg|code|[w''|e]]; simpl; try (by rewrite Hg).
  done.
Qed.

(** X14: after the Auto-resolve button of the Missing Models popup, the
    dialog is shown for the right workflow.  When the bulk pass has
    patched the workflow, the graph holds the patched workflow and the
    last analysis the dialog asks for, the one it displays, is of that
    workflow; when the bulk pass has patched nothing, the graph is the
    one it was. *)
Theorem popup_shows_patched_workflow api d :
  let updated := (autoResolve100Percent api d).1 in
  let d' := handleAutoResolveInPopup api d in
  (∀ w', updated = Some w' →
     graph d' = Some w' ∧
     (∃ earlier, analyzed (requests d') = earlier ++ [w']) ∧
     ∀ data, analyze api w' = Json data →
       display d' = displayMissingModels (size (activeDownloads d)) data) ∧
  (updated = None → graph d' = graph d).
Proof.
  intros updated d'. subst updated d'. unfold handleAutoResolveInPopup, show.
  destruct (autoResolve100Percent api d) as [updated d1] eqn:Hauto.
  assert (updated = (autoResolve100Percent api d).1) as Hu by (by rewrite Hauto).
  assert (d1 = (autoResolve100Percent api d).2) as Hd1 by (by rewrite Hauto).
  simpl. split.
  - intros w' ->. symmetry in Hu.
    destruct (autoResolve100Percent_returns api d w' Hu) as (Hg & earlier & Hearlier).
    rewrite <-Hd1 in Hg, Hearlier.
    destruct (autoResolve100Percent_frame api d) as [Htable _].
    rewrite <-Hd1 in Htable.
    destruct (loadWorkflowData_frame api (Some w') d1) as (Hg' & _).
    split_and!.
    + by rewrite Hg'.
    + unfold loadWorkflowData. simpl.
      destruct (analyze api w'); simpl; rewrite analyzed_app, Hearlier; simpl;
        by eexists.
    + intros data Hdata. unfold loadWorkflowData. simpl. rewrite Hdata. simpl.
      by rewrite Htable.
  - intros ->. symmetry in Hu.
    destruct (loadWorkflowData_frame api None d1) as (-> & _).
    rewrite Hd1. by apply autoResolve100Percent_returns_nothing.
Qed.
End Bulk.

(** ** Download all, and the step after a download *)

Section DownloadAll.
Context {Workflow : Type}.
Implicit Types (api : Api Workflow) (d : Dialog Workflow).

Lemma toDownload_offers (missingModels : list MissingModel) :
  toDownload missingModels =
  filter (λ missing, offers_download missing = true) missingModels.
Proof.
  unfold toDownload. apply list_filter_iff. intros missing.
  unfold offers_download, renderDownload. rewrite perfectMatches_eq.
  destruct (decide (0 < length (filter (λ m, confidence m = 100%Z) (allMatches missing)))%nat)
    as [Hp|Hp].
  - split; [|done]. intros Hno. destruct Hno. by left.
  - destruct (download_source missing) as [source|]; simpl.
    + destruct (truthy (url source)) as [u|]; simpl.
      * split; [done|]. intros _ [?|?]; done.
      * split; [|done]. intros Hno. destruct Hno. by right.
    + split; [|done]. intros Hno. destruct Hno. by right.
Qed.

(** X15: "Download All Missing" starts [downloadModel] for exactly the
    entries of a fresh analysis whose card offers the Download button
    (no perfect local match, a download URL), in the order of the
    analysis, and for no other entry; it changes neither the graph nor
    the tracking table and sends no resolve batch itself. *)
Theorem downloadAll_starts_offered_downloads api d (w : Workflow) data :
  graph d = Some w →
  analyze api w = Json data →
  let started := (downloadAllMissing api d).1 in
  let d' := (downloadAllMissing api d).2 in
  started =
    filter (λ missing, offers_download missing = true)
      (Js.or_else (missing_models data) []) ∧
  graph d' = graph d ∧
  activeDownloads d' = activeDownloads d ∧
  resolve_batches (requests d') = resolve_batches (requests d).
Proof.
  intros Hg Han started d'. subst started d'.
  unfold downloadAllMissing, getCurrentWorkflow. rewrite Hg, Han.
  rewrite <-toDownload_offers.
  case_decide as Hempty; simpl; rewrite ?resolve_batches_app, ?app_nil_r;
    split_and!; try done.
  by destruct (toDownload _).
Qed.

Lemma displays_current_load api o d :
  (∀ w, o = Some w → graph d = Some w) →
  displays_current api (loadWorkflowData api o d).
Proof.
  intros Ho. unfold displays_current.
  destruct (loadWorkflowData_frame api o d) as (-> & -> & _).
  unfold loadWorkflowData, getCurrentWorkflow. simpl.
  destruct o as [w|].
  - rewrite (Ho w eq_refl). by destruct (analyze api w).
  - destruct (graph d) as [w|]; [|done]. by destruct (analyze api w).
Qed.

(** X17: the step after a download resolves nothing but an entry named
    like the download.  It sends at most one batch; the batch is for all
    references of an entry of the fresh analysis whose missing file name
    equals the downloaded one, case aside, and it links a candidate of
    that entry that is at confidence 100 or is itself named like the
    download. *)
Theorem after_download_links_the_download api (missing : MissingModel)
    (downloaded : string) d :
  let d' := autoResolveAfterDownload api missing downloaded d in
  resolve_batches (requests d') = resolve_batches (requests d) ∨
  ∃ w data target m mdl,
    graph d = Some w ∧ analyze api w = Json data ∧
    target ∈ Js.or_else (missing_models data) [] ∧
    toLowerCase (basename_or EmptyString (original_path target)) =
      toLowerCase downloaded ∧
    m ∈ allMatches target ∧ model m = Some mdl ∧
    (confidence m = 100 ∨
     toLowerCase (default EmptyString (str_or (filename m) (model m ≫= model_filename)))
       = toLowerCase downloaded) ∧
    resolve_batches (requests d') =
      resolve_batches (requests d) ++ [(w, resolution_of mdl <$> nodeRefs target)].
Proof.
  intros d'. subst d'.
  assert (∀ o d0, resolve_batches (requests (loadWorkflowData api o d0)) =
                  resolve_batches (requests d0)) as Hload.
  { intros o d0. by destruct (loadWorkflowData_frame api o d0) as (_ & _ & _ & _ & -> & _). }
  unfold autoResolveAfterDownload, getCurrentWorkflow.
  destruct (graph d) as [w|] eqn:Hg; [|left; apply Hload].
  destruct (analyze api w) as [msg|code|data] eqn:Han;
    try (left; rewrite Hload; simpl; by rewrite resolve_batches_app, app_nil_r).
  destruct (Js.find (named_like downloaded) _) as [target|] eqn:Htarget;
    [|left; rewrite Hload; simpl; by rewrite resolve_batches_app, app_nil_r].
  destruct (Js.find (matches_download downloaded) _) as [[c [mdl|] f]|] eqn:Hm;
    try (left; rewrite Hload; simpl; by rewrite resolve_batches_app, app_nil_r).
  right. apply find_Some in Htarget as [Hin Hnamed].
  apply find_Some in Hm as [Hmin Hmatch].
  exists w, data, target, {| confidence := c; model := Some mdl; filename := f |}, mdl.
  split_and!; try done.
  - unfold named_like, same_name in Hnamed. by apply bool_decide_eq_true in Hnamed.
  - unfold matches_download, same_name in Hmatch.
    apply orb_true_iff in Hmatch as [Hc|Hf]; [left|right];
      by apply bool_decide_eq_true in Hc || by apply bool_decide_eq_true in Hf.
  - destruct (resolve api w _) as [msg|code|[w'|e]]; rewrite Hload;
      unfold updateWorkflowInComfyUI; simpl; rewrite ?Hg; simpl;
      by rewrite !resolve_batches_app, app_nil_r.
Qed.

(** X18: whatever happens in the step after a download (no workflow, a
    failed analysis, no entry or candidate for the download, a refused or
    failed resolve, or success), the dialog ends up displaying the
    analysis of the workflow that is then in the graph. *)
Theorem after_download_displays_current api (missing : MissingModel)
    (downloaded : string) d :
  displays_current api (autoResolveAfterDownload api missing downloaded d).
Proof.
  unfold autoResolveAfterDownload, getCurrentWorkflow.
  destruct (graph d) as [w|] eqn:Hg; [|by apply displays_current_load].
  destruct (analyze api w) as [msg|code|data];
    try (by apply displays_current_load).
  destruct (Js.find (named_like downloaded) _) as [target|];
    [|by apply displays_current_load].
  destruct (Js.find (matches_download downloaded) _) as [[c [mdl|] f]|];
    try (by apply displays_current_load).
  destruct (resolve api w _) as [msg|code|[w'|e]];
    try (by apply displays_current_load).
  apply displays_current_load. intros ? [= <-].
  unfold updateWorkflowInComfyUI. simpl. by rewrite Hg.
Qed.
End DownloadAll.

Lemma downloadAll_starts_offered_downloads_witness :
  let api := Sample.server [Sample.perfect_entry; SampleDownloads.remote_entry;
                            Sample.weak_entry] (Status 500) in
  (graph SampleDownloads.idle = Some Sample.workflow ∧
   analyze api Sample.workflow =
     Json {| missing_models :=
               Some [Sample.perfect_entry; SampleDownloads.remote_entry; Sample.weak_entry];
             total_missing := Some 3 |}) ∧
  (downloadAllMissing api SampleDownloads.idle).1 = [SampleDownloads.remote_entry].
Proof.
  split; [split; reflexivity|].
  apply (downloadAll_starts_offered_downloads
           (Sample.server [Sample.perfect_entry; SampleDownloads.remote_entry;
                           Sample.weak_entry] (Status 500))
           SampleDownloads.idle Sample.workflow _ eq_refl eq_refl).
Defined.

(** ** [formatBytes], continued *)

(** X16: below 1024^4 the number [formatBytes] prints is the byte count
    in the largest unit that does not exceed it, rounded to tenths: the
    printed tenths differ from the exact value by at most half a tenth. *)
Theorem formatBytes_accuracy (b : Z) :
  1 ≤ b < 1024 ^ 4 →
  ∃ i tenths unit,
    0 ≤ i ≤ 3 ∧ sizes !! Z.to_nat i = Some unit ∧
    1024 ^ i ≤ b < 1024 ^ (i + 1) ∧
    formatBytes b = (print_tenths tenths +:+ " " +:+ unit)%string ∧
    2 * Z.abs (10 * b - tenths * 1024 ^ i) ≤ 1024 ^ i.
Proof.
  intros [Hlo Hhi].
  destruct (log1024_bounds b) as (Hi0 & Hi1 & Hi2); [lia|].
  assert (log1024 b < 4) as Hi4.
  { destruct (decide (log1024 b < 4)) as [|Hge]; [done|].
    assert (1024 ^ 4 ≤ 1024 ^ log1024 b) by (apply Z.pow_le_mono_r; lia). lia. }
  remember (log1024 b) as i eqn:Hi. set (dd := 1024 ^ i) in *.
  assert (0 < dd) as Hd by (apply Z.pow_pos_nonneg; lia).
  exists i, ((20 * b + dd) / (2 * dd)), (unit_at i).
  split; [lia|]. split.
  { assert (i = 0 ∨ i = 1 ∨ i = 2 ∨ i = 3) as [Hc | [Hc | [Hc | Hc]]] by lia;
      rewrite Hc; reflexivity. }
  split; [done|]. split.
  { rewrite formatBytes_pos by lia. by rewrite <-Hi. }
  pose proof (Z.div_mod (20 * b + dd) (2 * dd)).
  pose proof (Z.mod_pos_bound (20 * b + dd) (2 * dd)).
  set (t := (20 * b + dd) / (2 * dd)) in *.
  assert (2 * dd * t = t * dd * 2) by lia. lia.
Qed.

Lemma formatBytes_accuracy_witness :
  1 ≤ 123456789 < 1024 ^ 4 ∧
  ∃ i tenths unit,
    0 ≤ i ≤ 3 ∧ sizes !! Z.to_nat i = Some unit ∧
    1024 ^ i ≤ 123456789 < 1024 ^ (i + 1) ∧
    formatBytes 123456789 = (print_tenths tenths +:+ " " +:+ unit)%string ∧
    2 * Z.abs (10 * 123456789 - tenths * 1024 ^ i) ≤ 1024 ^ i.
Proof. split; [lia|]. apply formatBytes_accuracy. lia. Defined.

(** ** What a resolve leaves behind *)

Section ResolveOutcome.
Context {Workflow : Type}.
Implicit Types (api : Api Workflow) (d : Dialog Workflow).

(** X19: [resolveModel] ends in one of two ways.  If the server accepts
    the batch, the graph holds the workflow it returned and the dialog
    displays the analysis of that workflow.  In every other case (the
    batch is refused, the request fails) the graph, the display, the
    tracking table and the timers are what they were, and exactly one
    error notification has been added. *)
Theorem resolveModel_outcome api (missing : MissingModel) (mdl : Model) d
    (w : Workflow) :
  graph d = Some w →
  let d' := resolveModel api missing (Some mdl) d in
  match resolve api w (resolution_of mdl <$> nodeRefs missing) with
  | Json (ResolveSuccess w') =>
      graph d' = Some w' ∧ displays_current api d'
  | _ =>
      graph d' = Some w ∧ display d' = display d ∧
      activeDownloads d' = activeDownloads d ∧ timers d' = timers d ∧
      ∃ text, notifications d' =
                notifications d ++ [{| message := text; type := error |}]
  end.
Proof.
  intros Hg d'. subst d'.
  pose proof (resolveModel_graph api missing mdl d w Hg) as Hgraph.
  unfold resolveModel, getCurrentWorkflow in *. rewrite Hg in *.
  destruct (resolve api w _) as [msg|code|[w'|e]]; simpl in *;
    try (split_and!; try done; by eexists).
  split; [done|]. apply displays_current_load. intros ? [= <-].
  unfold updateWorkflowInComfyUI. simpl. by rewrite Hg.
Qed.

Lemma loadWorkflowData_sent api o d :
  ∃ later, requests (loadWorkflowData api o d) = requests d ++ later ∧
           resolve_batches later = [].
Proof.
  destruct (loadWorkflowData_frame api o d) as (_ & _ & _ & _ & Hb & later & Hr).
  exists later. split; [done|].
  rewrite Hr, resolve_batches_app in Hb.
  apply (app_inv_head (resolve_batches (requests d))). by rewrite app_nil_r.
Qed.

(** What the three resolving calls have in common once the server has
    accepted their batch: the workflow is put into the graph and the
    dialog is reloaded. *)
Lemma patched api d w batch w' (text : string) :
  graph d = Some w →
  resolve api w batch = Json (ResolveSuccess w') →
  graph_kept_or_patched api d
    (loadWorkflowData api (Some w')
       (showNotification text success
          (updateWorkflowInComfyUI w' (fetchApi (PostResolve w batch) d)))).
Proof.
  intros Hg Hres. right.
  match goal with
  | |- context [loadWorkflowData ?a ?b ?c] =>
      destruct (loadWorkflowData_sent a b c) as (later & Hr & Hlater);
      destruct (loadWorkflowData_frame a b c) as (Hgraph & _)
  end.
  exists w, batch, w', (PostResolve w batch :: later). split_and!; try done.
  - rewrite Hr. unfold updateWorkflowInComfyUI. simpl. rewrite Hg. simpl.
    by rewrite <-app_assoc.
  - simpl. by rewrite Hlater.
  - rewrite Hgraph. unfold updateWorkflowInComfyUI. simpl. by rewrite Hg.
Qed.

Lemma resolveModel_graph_effect api missing mdl d :
  graph_kept_or_patched api d (resolveModel api missing mdl d).
Proof.
  destruct mdl as [mdl|]; [|by left].
  unfold resolveModel, getCurrentWorkflow.
  destruct (graph d) as [w|] eqn:Hg; [|by left].
  destruct (resolve api w _) as [msg|code|[w'|e]] eqn:Hres; try (by left).
  by apply patched.
Qed.

Lemma autoResolve100Percent_graph_effect api d :
  graph_kept_or_patched api d (autoResolve100Percent api d).2.
Proof.
  unfold autoResolve100Percent, getCurrentWorkflow.
  destruct (graph d) as [w|] eqn:Hg; [|by left].
  destruct (analyze api w) as [msg|code|data]; simpl; try (by left).
  case_decide; simpl; [by left|].
  destruct (resolve api w _) as [msg|code|[w'|e]] eqn:Hres; simpl; try (by left).
  match goal with
  | |- context [loadWorkflowData ?a (Some w') (showNotification ?text success ?c)] =>
      destruct (patched api (fetchApi (PostAnalyze w) d) w _ w' text Hg Hres)
        as [Hkept|(w0 & batch & w1 & sent & Hg0 & Hr & Hsent & Hres0 & Hg1)]
  end.
  - by left.
  - right. exists w0, batch, w1, (PostAnalyze w :: sent). split_and!; try done.
    rewrite Hr. simpl. by rewrite <-app_assoc.
Qed.

Lemma autoResolveAfterDownload_graph_effect api missing downloaded d :
  graph_kept_or_patched api d (autoResolveAfterDownload api missing downloaded d).
Proof.
  assert (∀ o d0, graph d0 = graph d →
            graph_kept_or_patched api d (loadWorkflowData api o d0)) as Hload.
  { intros o d0 H0. left.
    by destruct (loadWorkflowData_frame api o d0) as (-> & _). }
  unfold autoResolveAfterDownload, getCurrentWorkflow.
  destruct (graph d) as [w|] eqn:Hg; [|by apply Hload].
  destruct (analyze api w) as [msg|code|data]; try (by apply Hload).
  destruct (Js.find (named_like downloaded) _) as [target|]; [|by apply Hload].
  destruct (Js.find (matches_download downloaded) _) as [[c [mdl|] f]|];
    try (by apply Hload).
  destruct (resolve api w _) as [msg|code|[w'|e]] eqn:Hres; try (by apply Hload).
  match goal with
  | |- context [loadWorkflowData ?a (Some w') (showNotification ?text success ?c)] =>
      destruct (patched api (fetchApi (PostAnalyze w) d) w _ w' text Hg Hres)
        as [Hkept|(w0 & batch & w1 & sent & Hg0 & Hr & Hsent & Hres0 & Hg1)]
  end.
  - by left.
  - right. exists w0, batch, w1, (PostAnalyze w :: sent). split_and!; try done.
    rewrite Hr. simpl. by rewrite <-app_assoc.
Qed.

(** X21: nothing the dialog does changes the workflow graph except a
    resolve batch the server has accepted.  After any step (a timer
    firing, a download being started from a card or a search result, an
    entry being resolved, the bulk pass, the dialog being shown) the
    graph is the one it was; or the step has sent exactly one resolve
    batch, with the workflow that was in the graph, the server has
    accepted that batch, and the graph is the workflow the server
    returned for it. *)
Theorem graph_changes_only_by_resolve api d d' :
  DialogStep api d d' → graph_kept_or_patched api d d'.
Proof.
  intros [before t after Hts|missing|missing u f c|missing mdl| |w].
  - destruct (task t) as [downloadId|missing downloaded]; simpl.
    + left. by destruct (pollDownloadProgress_frame api downloadId
                           (set_timers (before ++ after) d)) as [-> _].
    + exact (autoResolveAfterDownload_graph_effect api missing downloaded
               (set_timers (before ++ after) d)).
  - left. by destruct (downloadModel_frame api missing d) as [-> _].
  - left. unfold downloadFromSearch.
    destruct (download api u f c) as [msg|code|data]; simpl; try done.
    destruct (started data); simpl; [|done].
    match goal with
    | |- context [pollDownloadProgress ?a ?b ?c] =>
        by destruct (pollDownloadProgress_frame a b c) as [-> _]
    end.
  - apply resolveModel_graph_effect.
  - apply autoResolve100Percent_graph_effect.
  - left. unfold show. by destruct (loadWorkflowData_frame api w d) as (-> & _).
Qed.
End ResolveOutcome.

Lemma resolveModel_outcome_witness :
  let api := Sample.server [] (Status 500) in
  let d := Sample.dialog_over Sample.stale_workflow Sample.perfect_entry in
  let d' := resolveModel api Sample.perfect_entry (Some Sample.file) d in
  graph d = Some Sample.stale_workflow ∧
  graph d' = Some Sample.stale_workflow ∧ display d' = display d ∧
  activeDownloads d' = activeDownloads d ∧ timers d' = timers d ∧
  ∃ text, notifications d' =
            notifications d ++ [{| message := text; type := error |}].
Proof.
  split; [reflexivity|].
  exact (resolveModel_outcome (Sample.server [] (Status 500)) Sample.perfect_entry
           Sample.file (Sample.dialog_over Sample.stale_workflow Sample.perfect_entry)
           Sample.stale_workflow eq_refl).
Defined.

Lemma graph_changes_only_by_resolve_witness :
  let api := Sample.server [] (Status 500) in
  let d := Sample.dialog Sample.perfect_entry in
  let d' := resolveModel api Sample.perfect_entry (Some Sample.file) d in
  DialogStep api d d' ∧ graph_kept_or_patched api d d'.
Proof.
  split; [apply step_resolve|].
  apply graph_changes_only_by_resolve, step_resolve.
Defined.

(** Resolving the sample entry patches the graph: the graph is not the one
    it was. *)
Example sample_patched :
  let api := Sample.server [] (Status 500) in
  let d := Sample.dialog Sample.perfect_entry in
  graph (resolveModel api Sample.perfect_entry (Some Sample.file) d) ≠ graph d.
Proof. discriminate. Qed.

(** ** File names *)

Lemma after_last_plain c s : contains c s = false → after_last c s = s.
Proof. destruct s as [|x s]; [done|]. intros Hs. simpl in *. by rewrite Hs. Qed.

Lemma has_separator_contains s :
  has_separator s = contains "/" s || contains "\" s.
Proof.
  induction s as [|x s IH]; [done|]. simpl. rewrite IH. unfold is_separator.
  destruct (Ascii.eqb x "/"), (Ascii.eqb x "\"), (contains "/" s), (contains "\" s);
    done.
Qed.

Lemma contains_after_last c s : contains c (after_last c s) = false.
Proof.
  induction s as [|x s IH]; [done|].
  change (after_last c (String x s))
    with (if contains c (String x s) then after_last c s else String x s).
  by destruct (contains c (String x s)) eqn:Hc.
Qed.

Lemma contains_after_last_other c c' s :
  contains c s = false → contains c (after_last c' s) = false.
Proof.
  induction s as [|x s IH]; [done|]. intros Hs.
  change (after_last c' (String x s))
    with (if contains c' (String x s) then after_last c' s else String x s).
  destruct (contains c' (String x s)); [|done].
  apply IH. simpl in Hs. by apply orb_false_iff in Hs as [_ ?].
Qed.

Lemma basename_last_part s : after_last "\" (after_last "/" s) = last_part s.
Proof.
  induction s as [|x s IH]; [done|].
  change (after_last "/" (String x s))
    with (if contains "/" (String x s) then after_last "/" s else String x s).
  change (last_part (String x s))
    with (if has_separator (String x s) then last_part s else String x s).
  rewrite (has_separator_contains (String x s)).
  destruct (contains "/" (String x s)) eqn:Hslash;
    [rewrite orb_true_l; exact IH|rewrite orb_false_l].
  change (after_last "\" (String x s))
    with (if contains "\" (String x s) then after_last "\" s else String x s).
  destruct (contains "\" (String x s)) eqn:Hback; [|done].
  rewrite <-IH. f_equal. symmetry. apply after_last_plain.
  simpl in Hslash. by apply orb_false_iff in Hslash as [_ ?].
Qed.

(** X20: the two ways the dialog takes the file name out of a path agree:
    cutting at the last slash and then at the last backslash gives what
    follows the last separator of either kind, and that name contains no
    separator. *)
Theorem basename_agrees (path : string) :
  after_last "\" (after_last "/" path) = last_part path ∧
  has_separator (last_part path) = false.
Proof.
  split; [apply basename_last_part|].
  rewrite <-basename_last_part, has_separator_contains.
  rewrite contains_after_last.
  rewrite contains_after_last_other by apply contains_after_last.
  done.
Qed.
